(** * go-routeros: wire framing, sentence codec and client core

    A shallow embedding of the RouterOS API client
    (package [routeros] and its sub-package [proto]) together with the
    properties of its word framer, sentence reader, sentence writer,
    command dispatcher and login handshake. *)

From Stdlib Require Import ZArith Lia List Bool String Ascii.
From Stdlib Require Import DecimalString DecimalN.
From stdpp Require Import gmap strings list.

Local Open Scope Z_scope.

(** ** Go values shared by both packages *)

(** Go's [error] interface, restricted to the values this library can
    produce or pass on.  [EOF] and [ErrUnexpectedEOF] are the two errors of
    [io.ReadFull]; [ErrTransport] stands for any other error of the
    underlying connection (deadline exceeded, connection reset, ...);
    [ErrDevice] is the error made from a [!trap] sentence, with the
    message of the device. *)
Inductive error : Type :=
| EOF
| ErrUnexpectedEOF
| ErrTransport (code : nat)
| ErrInvalidWord (b : list Z)
| errEmptyWord
| errAsyncTimeout
| errAsyncLoopEnded
| ErrNoRet
| ErrInvalidRet
| ErrDevice (message : string).

(** A [uint8] is a [Z] in [0, 256); [byte x] is Go's conversion [byte(x)]
    of an integer, which keeps the low eight bits. *)
Definition byte (x : Z) : Z := x mod 256.

Definition is_byte (b : Z) : Prop := 0 <= b < 256.

(** Go's [int64] arithmetic wraps around in two's complement. *)
Definition int64 (x : Z) : Z := (x + 2 ^ 63) mod 2 ^ 64 - 2 ^ 63.

(** [[]byte(s)] and [string(b)]: a Go string is its byte sequence. *)
Definition bytes_of_string (s : string) : list Z :=
  map (fun c => Z.of_N (N_of_ascii c)) (list_ascii_of_string s).

Definition string_of_bytes (b : list Z) : string :=
  string_of_list_ascii (map (fun x => ascii_of_N (Z.to_N x)) b).


(** ** The parts of Go's standard library the client calls *)

(** [crypto/md5]: the MD5 digest of RFC 1321 over a byte sequence. *)
Module md5.

Definition u32 (x : Z) : Z := x mod 2 ^ 32.

Definition rotl (x c : Z) : Z :=
  u32 (Z.lor (Z.shiftl x c) (Z.shiftr x (32 - c))).

Definition K : list Z :=
  [0xd76aa478; 0xe8c7b756; 0x242070db; 0xc1bdceee;
   0xf57c0faf; 0x4787c62a; 0xa8304613; 0xfd469501;
   0x698098d8; 0x8b44f7af; 0xffff5bb1; 0x895cd7be;
   0x6b901122; 0xfd987193; 0xa679438e; 0x49b40821;
   0xf61e2562; 0xc040b340; 0x265e5a51; 0xe9b6c7aa;
   0xd62f105d; 0x02441453; 0xd8a1e681; 0xe7d3fbc8;
   0x21e1cde6; 0xc33707d6; 0xf4d50d87; 0x455a14ed;
   0xa9e3e905; 0xfcefa3f8; 0x676f02d9; 0x8d2a4c8a;
   0xfffa3942; 0x8771f681; 0x6d9d6122; 0xfde5380c;
   0xa4beea44; 0x4bdecfa9; 0xf6bb4b60; 0xbebfbc70;
   0x289b7ec6; 0xeaa127fa; 0xd4ef3085; 0x04881d05;
   0xd9d4d039; 0xe6db99e5; 0x1fa27cf8; 0xc4ac5665;
   0xf4292244; 0x432aff97; 0xab9423a7; 0xfc93a039;
   0x655b59c3; 0x8f0ccc92; 0xffeff47d; 0x85845dd1;
   0x6fa87e4f; 0xfe2ce6e0; 0xa3014314; 0x4e0811a1;
   0xf7537e82; 0xbd3af235; 0x2ad7d2bb; 0xeb86d391].

Definition shifts : list Z :=
  [7; 12; 17; 22; 7; 12; 17; 22; 7; 12; 17; 22; 7; 12; 17; 22;
   5; 9; 14; 20; 5; 9; 14; 20; 5; 9; 14; 20; 5; 9; 14; 20;
   4; 11; 16; 23; 4; 11; 16; 23; 4; 11; 16; 23; 4; 11; 16; 23;
   6; 10; 15; 21; 6; 10; 15; 21; 6; 10; 15; 21; 6; 10; 15; 21].

Fixpoint le_bytes (n : nat) (x : Z) : list Z :=
  match n with
  | O => []
  | S n' => x mod 256 :: le_bytes n' (x / 256)
  end.

Fixpoint le_word (bs : list Z) : Z :=
  match bs with
  | [] => 0
  | b :: bs' => b + 256 * le_word bs'
  end.

Definition pad (msg : list Z) : list Z :=
  let l := Z.of_nat (length msg) in
  msg ++ [0x80] ++ repeat 0 (Z.to_nat ((55 - l) mod 64))
      ++ le_bytes 8 ((8 * l) mod 2 ^ 64).

Fixpoint blocks (fuel : nat) (bs : list Z) : list (list Z) :=
  match fuel, bs with
  | S fuel', _ :: _ => firstn 64 bs :: blocks fuel' (skipn 64 bs)
  | _, _ => []
  end.

Fixpoint words (n : nat) (bs : list Z) : list Z :=
  match n with
  | O => []
  | S n' => le_word (firstn 4 bs) :: words n' (skipn 4 bs)
  end.

Definition not32 (x : Z) : Z := Z.lxor x 0xFFFFFFFF.

Definition step (m : list Z) (st : Z * Z * Z * Z) (i : nat) : Z * Z * Z * Z :=
  let '(a, b, c, d) := st in
  let '(f, g) :=
    if (i <? 16)%nat then
      (Z.lor (Z.land b c) (Z.land (not32 b) d), i)
    else if (i <? 32)%nat then
      (Z.lor (Z.land d b) (Z.land (not32 d) c), ((5 * i + 1) mod 16)%nat)
    else if (i <? 48)%nat then
      (Z.lxor (Z.lxor b c) d, ((3 * i + 5) mod 16)%nat)
    else
      (Z.lxor c (Z.lor b (not32 d)), ((7 * i) mod 16)%nat) in
  let f := u32 (f + a + nth i K 0 + nth g m 0) in
  (d, u32 (b + rotl f (nth i shifts 0)), b, c).

Definition block (st : Z * Z * Z * Z) (bs : list Z) : Z * Z * Z * Z :=
  let '(a0, b0, c0, d0) := st in
  let '(a, b, c, d) := fold_left (step (words 16 bs)) (seq 0 64) st in
  (u32 (a0 + a), u32 (b0 + b), u32 (c0 + c), u32 (d0 + d)).

Definition Sum (msg : list Z) : list Z :=
  let p := pad msg in
  let '(a, b, c, d) :=
    fold_left block (blocks (length p) p)
      (0x67452301, 0xefcdab89, 0x98badcfe, 0x10325476) in
  le_bytes 4 a ++ le_bytes 4 b ++ le_bytes 4 c ++ le_bytes 4 d.

End md5.

(** [encoding/hex] and the [%x] verb of [fmt]. *)
Module hex.

Definition fromHexChar (c : Z) : option Z :=
  if (48 <=? c) && (c <=? 57) then Some (c - 48)
  else if (97 <=? c) && (c <=? 102) then Some (c - 97 + 10)
  else if (65 <=? c) && (c <=? 70) then Some (c - 65 + 10)
  else None.

Fixpoint Decode (src : list Z) : option (list Z) :=
  match src with
  | [] => Some []
  | [_] => None
  | p :: q :: rest =>
      match fromHexChar p, fromHexChar q, Decode rest with
      | Some a, Some b, Some bs => Some (a * 16 + b :: bs)
      | _, _, _ => None
      end
  end.

Definition DecodeString (s : string) : option (list Z) :=
  Decode (bytes_of_string s).

Definition hextable : list Z := bytes_of_string "0123456789abcdef".

Fixpoint Encode (src : list Z) : list Z :=
  match src with
  | [] => []
  | v :: rest =>
      nth (Z.to_nat (Z.shiftr v 4)) hextable 0
      :: nth (Z.to_nat (Z.land v 0x0f)) hextable 0 :: Encode rest
  end.

Definition EncodeToString (src : list Z) : string :=
  string_of_bytes (Encode src).

End hex.

(** [strconv.FormatUint(n, 10)]. *)
Definition FormatUint (n : Z) : string :=
  NilZero.string_of_uint (N.to_uint (Z.to_N n)).

(** [strings.Trim(s, cutset)] for a cutset of single-byte characters. *)
Definition inCutset (cutset : string) (c : ascii) : bool :=
  existsb (Ascii.eqb c) (list_ascii_of_string cutset).

Fixpoint trimLeft (s : list ascii) (cutset : string) : list ascii :=
  match s with
  | [] => []
  | c :: s' => if inCutset cutset c then trimLeft s' cutset else s
  end.

Definition Trim (s cutset : string) : string :=
  let l := trimLeft (list_ascii_of_string s) cutset in
  string_of_list_ascii (rev (trimLeft (rev l) cutset)).

Module proto.

(** *** writer.go: the length prefix *)

Definition encodeLength (l : Z) : list Z :=
  if l <? 0x80 then
    [byte l]
  else if l <? 0x4000 then
    [Z.lor (byte (Z.shiftr l 8)) 0x80; byte l]
  else if l <? 0x200000 then
    [Z.lor (byte (Z.shiftr l 16)) 0xC0; byte (Z.shiftr l 8); byte l]
  else if l <? 0x10000000 then
    [Z.lor (byte (Z.shiftr l 24)) 0xE0; byte (Z.shiftr l 16);
     byte (Z.shiftr l 8); byte l]
  else
    [0xF0; byte (Z.shiftr l 24); byte (Z.shiftr l 16);
     byte (Z.shiftr l 8); byte l].

(** *** reader.go *)

(** The reader owns a buffered view of the connection.  The model is the
    sequence of bytes the peer sends before the stream ends; the read
    deadline armed by [setDeadline] has no effect on such a stream. *)
Record reader : Type := mkReader { bufferedReader : list Z }.

(** Reading threads the reader and may fail: a state-and-error monad. *)
Definition M (A : Type) : Type := reader -> (error + A) * reader.

Definition ret {A} (a : A) : M A := fun r => (inr a, r).

Definition fail {A} (e : error) : M A := fun r => (inl e, r).

Definition bind {A B} (m : M A) (k : A -> M B) : M B :=
  fun r =>
    match m r with
    | (inl e, r') => (inl e, r')
    | (inr a, r') => k a r'
    end.

Notation "x <- m ;; k" := (bind m (fun x => k))
  (at level 100, m at next level, right associativity).

(** [io.ReadFull(r.bufferedReader, buf)] with [len(buf) = n]: exactly [n]
    bytes, [EOF] when the stream ends before the first byte and
    [ErrUnexpectedEOF] when it ends after some but not all of them. *)
Definition readFull (n : nat) (setDeadline : bool) : M (list Z) :=
  fun r =>
    let s := bufferedReader r in
    if (n <=? length s)%nat then (inr (take n s), mkReader (drop n s))
    else match s with
         | [] => (inl EOF, mkReader [])
         | _ :: _ => (inl ErrUnexpectedEOF, mkReader [])
         end.

Definition readNumber (size : nat) (setDeadline : bool) : M Z :=
  b <- readFull size setDeadline ;;
  ret (fold_left (fun num ch => Z.lor (int64 (Z.shiftl num 8)) ch) b 0).

Definition readLength (setDeadline : bool) : M Z :=
  l <- readNumber 1 setDeadline ;;
  if Z.land l 0x80 =? 0x00 then
    ret l
  else if Z.land l 0xC0 =? 0x80 then
    n <- readNumber 1 true ;;
    ret (Z.lor (int64 (Z.shiftl (Z.land l (Z.lnot 0xC0)) 8)) n)
  else if Z.land l 0xE0 =? 0xC0 then
    n <- readNumber 2 true ;;
    ret (Z.lor (int64 (Z.shiftl (Z.land l (Z.lnot 0xE0)) 16)) n)
  else if Z.land l 0xF0 =? 0xE0 then
    n <- readNumber 3 true ;;
    ret (Z.lor (int64 (Z.shiftl (Z.land l (Z.lnot 0xF0)) 24)) n)
  else if Z.land l 0xF8 =? 0xF0 then
    readNumber 4 true
  else
    ret l.

Definition readWord (setDeadline : bool) : M (list Z) :=
  l <- readLength setDeadline ;;
  readFull (Z.to_nat l) true.

(** Modelled from the spec: the [Pair] and [Sentence] types and
    [NewSentence] (sentence.go is not part of the sources at hand).  A
    sentence has a verb [Word], a [Tag], the ordered attribute [List] and
    the derived key-to-value [Map], in which a later pair wins. *)
Record Pair : Type := mkPair { Key : string; Value : string }.

Record Sentence : Type := mkSentence {
  Word : string;
  Tag : string;
  List : list Pair;
  Map : gmap string string
}.

Definition NewSentence : Sentence :=
  {| Word := ""; Tag := ""; List := []; Map := ∅ |}.

(** [bytes.HasPrefix(s, prefix)]. *)
Fixpoint HasPrefix (s prefix : list Z) : bool :=
  match prefix, s with
  | [], _ => true
  | p :: prefix', c :: s' => (c =? p) && HasPrefix s' prefix'
  | _ :: _, [] => false
  end.

(** [bytes.IndexByte(s, c)]. *)
Fixpoint IndexByte (s : list Z) (c : Z) : option nat :=
  match s with
  | [] => None
  | x :: s' => if x =? c then Some O else S <$> IndexByte s' c
  end.

(** [bytes.SplitN(s, []byte{sep}, 2)]: cut at the first separator. *)
Definition SplitN2 (s : list Z) (sep : Z) : list (list Z) :=
  match IndexByte s sep with
  | Some i => [take i s; drop (S i) s]
  | None => [s]
  end.

(** The body of the [for] loop of [ReadSentence] below the end-of-sentence
    test: what one non-empty word [b] does to the sentence read so far. *)
Definition sentenceWord (sen : Sentence) (b : list Z) : error + Sentence :=
  if String.eqb (Word sen) "" then
    inr {| Word := string_of_bytes b; Tag := Tag sen;
           List := List sen; Map := Map sen |}
  else if HasPrefix b (bytes_of_string ".tag=") then
    inr {| Word := Word sen; Tag := string_of_bytes (drop 5 b);
           List := List sen; Map := Map sen |}
  else if HasPrefix b (bytes_of_string "=") then
    let t := SplitN2 (drop 1 b) 61 in
    let t := if (length t =? 1)%nat then t ++ [[]] else t in
    let p := {| Key := string_of_bytes (nth 0 t []);
                Value := string_of_bytes (nth 1 t []) |} in
    inr {| Word := Word sen; Tag := Tag sen;
           List := List sen ++ [p];
           Map := <[Key p := Value p]> (Map sen) |}
  else
    inl (ErrInvalidWord b).

(** The loop of [ReadSentence].  Every round reads at least the length
    byte of a word, so one more round than there are bytes left always
    suffices; the fuel is that bound and its exhaustion is unreachable. *)
Fixpoint ReadSentence_loop (fuel : nat) (setDeadline : bool)
    (sen : Sentence) : M Sentence :=
  match fuel with
  | O => fail ErrUnexpectedEOF
  | S fuel' =>
      b <- readWord setDeadline ;;
      if (length b =? 0)%nat then ret sen
      else match sentenceWord sen b with
           | inl e => fail e
           | inr sen' => ReadSentence_loop fuel' setDeadline sen'
           end
  end.

Definition ReadSentence (setDeadline : bool) : M Sentence :=
  fun r =>
    ReadSentence_loop (S (length (bufferedReader r))) setDeadline NewSentence r.

(** *** writer.go *)

(** What the writer asks of the connection.  [bufio_Writer] is the
    buffered connection: [results] are the results its coming [Write] and
    [Flush] calls will have ([None] for success, none left for success
    ever after), [calls] the calls made so far, oldest first. *)
Inductive io_call : Type :=
| CallSetWriteDeadline
| CallWrite (b : list Z)
| CallFlush.

Record bufio_Writer : Type := mkBufio {
  results : list (option error);
  calls : list io_call
}.

Definition bufio_call (c : io_call) (bw : bufio_Writer)
    : option error * bufio_Writer :=
  match results bw with
  | [] => (None, {| results := []; calls := calls bw ++ [c] |})
  | o :: rest => (o, {| results := rest; calls := calls bw ++ [c] |})
  end.

Record writer : Type := mkWriter {
  bufferedWriter : bufio_Writer;
  err : option error;
  locked : bool
}.

Definition setDeadline (w : writer) : writer :=
  {| bufferedWriter :=
       {| results := results (bufferedWriter w);
          calls := calls (bufferedWriter w) ++ [CallSetWriteDeadline] |};
     err := err w; locked := locked w |}.

Definition flush (w : writer) : writer :=
  match err w with
  | Some _ => w
  | None =>
      let w := setDeadline w in
      let '(e, bw) := bufio_call CallFlush (bufferedWriter w) in
      match e with
      | Some e => {| bufferedWriter := bw; err := Some e; locked := locked w |}
      | None => {| bufferedWriter := bw; err := err w; locked := locked w |}
      end
  end.

Definition write (b : list Z) (w : writer) : writer :=
  match err w with
  | Some _ => w
  | None =>
      let w := setDeadline w in
      let '(e, bw) := bufio_call (CallWrite b) (bufferedWriter w) in
      match e with
      | Some e => {| bufferedWriter := bw; err := Some e; locked := locked w |}
      | None => {| bufferedWriter := bw; err := err w; locked := locked w |}
      end
  end.

Definition BeginSentence (w : writer) : writer :=
  {| bufferedWriter := bufferedWriter w; err := err w; locked := true |}.

Definition WriteWord (word : string) (w : writer) : writer :=
  let b := bytes_of_string word in
  write b (write (encodeLength (Z.of_nat (length b))) w).

Definition EndSentence (w : writer) : option error * writer :=
  let w := flush (WriteWord "" w) in
  (err w, {| bufferedWriter := bufferedWriter w; err := err w;
             locked := false |}).

End proto.

Module routeros.

(** Modelled from the spec: the [Reply] type (reply.go is not part of the
    sources at hand): the ordered [!re] sentences and the terminal [!done]
    sentence, [None] for Go's nil pointer. *)
Record Reply : Type := mkReply {
  Re : list proto.Sentence;
  Done : option proto.Sentence
}.

(** [asyncReply] embeds a [chanReply] (the tag, the error the background
    loop stores, and the completion channel [reC]) and a [Reply]. *)
Record asyncReply : Type := mkAsyncReply {
  tag : string;
  err : option error;
  reply : Reply
}.

(** client.go: the [Client].  [lastTag] is the [atomic.Uint64]; [tags] is
    [None] for a nil map; [timeout] is a [time.Duration] (nanoseconds). *)
Record Client : Type := mkClient {
  r : proto.reader;
  w : proto.writer;
  closing : bool;
  async : bool;
  lastTag : Z;
  tags : option (gmap string asyncReply);
  timeout : Z
}.

Definition set_w (x : proto.writer) (c : Client) : Client :=
  {| r := r c; w := x; closing := closing c; async := async c;
     lastTag := lastTag c; tags := tags c; timeout := timeout c |}.

Definition set_r (x : proto.reader) (c : Client) : Client :=
  {| r := x; w := w c; closing := closing c; async := async c;
     lastTag := lastTag c; tags := tags c; timeout := timeout c |}.

(** [c.lastTag.Add(1)]: one atomic step that returns the new value. *)
Definition nextTag (c : Client) : Z * Client :=
  let n := (lastTag c + 1) mod 2 ^ 64 in
  (n, {| r := r c; w := w c; closing := closing c; async := async c;
         lastTag := n; tags := tags c; timeout := timeout c |}).

(** *** run.go *)

(** A call either returns or never does (a receive that blocks for ever). *)
Inductive outcome (A : Type) : Type :=
| Returns (a : A)
| Blocks.
Arguments Returns {A} a.
Arguments Blocks {A}.

(** A [*time.Timer] and its channel [C]. *)
Inductive Timer : Type := NewTimer (d : Z).

Definition newTimeoutTimer (d : Z) : option Timer * option Timer :=
  if 0 <? d then
    let timer := NewTimer d in (Some timer, Some timer)
  else (None, None).

(** Which case of the [select] of [RunArgs] is taken.  [ev] is what the
    completion channel does while the caller waits: [Some open] is a
    receive ([open = false] once the channel is closed), [None] is no
    receive before the timer, if there is one, fires.  A receive from a
    nil [timeout] channel is never ready. *)
Inductive selected : Type :=
| FromReC (open : bool)
| FromTimeout
| Never.

Definition select (ev : option bool) (timeout : option Timer) : selected :=
  match ev with
  | Some open => FromReC open
  | None =>
      match timeout with
      | Some _ => FromTimeout
      | None => Never
      end
  end.

(** The loop labelled [readAllSentences]: [Returns None] when the channel
    was closed (the loop is left by [break]), [Returns (Some
    errAsyncTimeout)] for the [return] of the timeout case.  When the
    events run out nothing is received any more. *)
Fixpoint readAllSentences (d : Z) (reC : list (option bool))
    : outcome (option error) :=
  let '(timeout, timer) := newTimeoutTimer d in
  match reC with
  | [] =>
      match select None timeout with
      | FromTimeout => Returns (Some errAsyncTimeout)
      | _ => Blocks
      end
  | ev :: reC' =>
      match select ev timeout with
      | FromReC open =>
          if negb open then Returns None else readAllSentences d reC'
      | FromTimeout => Returns (Some errAsyncTimeout)
      | Never => Blocks
      end
  end.

Definition emptyWord (word : string) : bool :=
  (String.length (Trim word " ") =? 0)%nat.

Section Run.

(** The client that [RunArgs] returns in asynchronous mode is the client
    as [endCommandAsync] left it: the removals that the background loop
    makes in the tag table while the caller waits are not part of it.

    [Client.readReply], which reads and aggregates sentences from the
    client's reader, and the background loop of asynchronous mode are not
    part of the sources at hand.  They are parameters: [readReply] as a
    function of the reader, the loop as the events [reC] it causes on the
    completion channel and the reply and error [stored] in the
    [asyncReply] by the time the channel is closed. *)
Variable readReply :
  proto.reader -> (option Reply * option error) * proto.reader.
Variable reC : list (option bool).
Variable stored : Reply * option error.

Definition endCommandSync (c : Client)
    : (option Reply * option error) * Client :=
  let '(e, w') := proto.EndSentence (w c) in
  let c := set_w w' c in
  match e with
  | Some e => ((None, Some e), c)
  | None =>
      let '(res, r') := readReply (r c) in
      (res, set_r r' c)
  end.

Definition endCommandAsync (c : Client) : (error + asyncReply) * Client :=
  let '(n, c) := nextTag c in
  let a := {| tag := "r" +:+ FormatUint n; err := None;
              reply := {| Re := []; Done := None |} |} in
  let c := set_w (proto.WriteWord (".tag=" +:+ tag a) (w c)) c in
  let '(e, w') := proto.EndSentence (w c) in
  let c := set_w w' c in
  match e with
  | Some e => (inl e, c)
  | None =>
      match tags c with
      | None => (inl errAsyncLoopEnded, c)
      | Some t =>
          (inr a,
           {| r := r c; w := w c; closing := closing c; async := async c;
              lastTag := lastTag c; tags := Some (<[tag a := a]> t);
              timeout := timeout c |})
      end
  end.

Definition RunArgs (sentence : list string) (c : Client)
    : outcome (option Reply * option error) * Client :=
  if existsb emptyWord sentence then
    (Returns (None, Some errEmptyWord), c)
  else
    let c := set_w (proto.BeginSentence (w c)) c in
    let c :=
      fold_left (fun c word => set_w (proto.WriteWord word (w c)) c)
        sentence c in
    if negb (async c) then
      let '(res, c) := endCommandSync c in (Returns res, c)
    else
      match endCommandAsync c with
      | (inl e, c) => (Returns (None, Some e), c)
      | (inr a, c) =>
          match readAllSentences (timeout c) reC with
          | Returns (Some e) => (Returns (None, Some e), c)
          | Returns None => (Returns (Some (fst stored), snd stored), c)
          | Blocks => (Blocks, c)
          end
      end.

Definition Run (sentence : list string) (c : Client)
    : outcome (option Reply * option error) * Client :=
  RunArgs sentence c.

End Run.

(** *** client.go: login *)

Definition challengeResponse (cha : list Z) (password : string) : string :=
  "00" +:+ hex.EncodeToString (md5.Sum ([0] ++ bytes_of_string password ++ cha)).

(** [Login] is a client of [Run] alone.  It is written as the tree of its
    calls: what it passes to [Run] and how it goes on from what [Run]
    returns.  [Panic] is Go's run-time panic on a nil dereference. *)
Inductive Cmd (A : Type) : Type :=
| Return (a : A)
| Panic
| CallRun (sentence : list string)
    (k : option Reply * option error -> Cmd A).
Arguments Return {A} a.
Arguments Panic {A}.
Arguments CallRun {A} sentence k.

Definition Login (username password : string) : Cmd (option error) :=
  CallRun ["/login"; "=name=" +:+ username; "=password=" +:+ password]
    (fun '(reply, e) =>
       match e with
       | Some e => Return (Some e)
       | None =>
           match reply with
           | None => Panic
           | Some reply =>
               match Done reply with
               | None => Panic
               | Some done =>
                   match proto.Map done !! "ret" with
                   | None =>
                       match Done reply with
                       | Some _ => Return None
                       | None => Return (Some ErrNoRet)
                       end
                   | Some ret =>
                       match hex.DecodeString ret with
                       | None => Return (Some ErrInvalidRet)
                       | Some b =>
                           CallRun
                             ["/login"; "=name=" +:+ username;
                              "=response=" +:+ challengeResponse b password]
                             (fun '(_, e) =>
                                match e with
                                | Some e => Return (Some e)
                                | None => Return None
                                end)
                       end
                   end
               end
           end
       end).

(** Running a call tree against a client: the result, the client
    afterwards and the sentences passed to [Run], oldest first. *)
Inductive result (A : Type) : Type :=
| Returned (a : A)
| Panicked
| Blocked.
Arguments Returned {A} a.
Arguments Panicked {A}.
Arguments Blocked {A}.

Fixpoint exec {St A : Type}
    (run : list string -> St -> outcome (option Reply * option error) * St)
    (p : Cmd A) (c : St) : result A * St * list (list string) :=
  match p with
  | Return a => (Returned a, c, [])
  | Panic => (Panicked, c, [])
  | CallRun sentence k =>
      match run sentence c with
      | (Blocks, c') => (Blocked, c', [sentence])
      | (Returns res, c') =>
          let '(x, c'', sent) := exec run (k res) c' in
          (x, c'', sentence :: sent)
      end
  end.

End routeros.

(** * Specification-side definitions *)

(** The bytes of one word on the wire: its length prefix and its payload
    (the two writes of [WriteWord]); [wire] is a sequence of words. *)
Definition encodeWord (word : string) : list Z :=
  proto.encodeLength (Z.of_nat (length (bytes_of_string word)))
  ++ bytes_of_string word.

Definition wire (words : list string) : list Z :=
  concat (map encodeWord words).

(** The loop body of [ReadSentence] over a sequence of non-empty words. *)
Fixpoint sentenceWords (sen : proto.Sentence) (words : list string)
    : error + proto.Sentence :=
  match words with
  | [] => inr sen
  | word :: words' =>
      match proto.sentenceWord sen (bytes_of_string word) with
      | inl e => inl e
      | inr sen' => sentenceWords sen' words'
      end
  end.

(** The word shapes the specification names for the words after the verb:
    [.tag=<tag>], [=<key>=<value>] and [=<key>].  A key holds no [=]. *)
Inductive attrWord : Type :=
| TagWord (t : string)
| PairWord (k v : string)
| KeyWord (k : string).

Definition render (a : attrWord) : string :=
  match a with
  | TagWord t => ".tag=" +:+ t
  | PairWord k v => "=" +:+ k +:+ "=" +:+ v
  | KeyWord k => "=" +:+ k
  end.

Definition noEq (k : string) : Prop :=
  ~ In "="%char (list_ascii_of_string k).

Definition attr_ok (a : attrWord) : Prop :=
  match a with
  | TagWord _ => True
  | PairWord k _ => noEq k
  | KeyWord k => noEq k
  end.

(** What the specification says a word after the verb does. *)
Definition addAttr (sen : proto.Sentence) (a : attrWord) : proto.Sentence :=
  match a with
  | TagWord t =>
      {| proto.Word := proto.Word sen; proto.Tag := t;
         proto.List := proto.List sen; proto.Map := proto.Map sen |}
  | PairWord k v =>
      {| proto.Word := proto.Word sen; proto.Tag := proto.Tag sen;
         proto.List := proto.List sen ++ [proto.mkPair k v];
         proto.Map := <[k := v]> (proto.Map sen) |}
  | KeyWord k =>
      {| proto.Word := proto.Word sen; proto.Tag := proto.Tag sen;
         proto.List := proto.List sen ++ [proto.mkPair k ""];
         proto.Map := <[k := ""]> (proto.Map sen) |}
  end.

Definition sentence_of (verb : string) (attrs : list attrWord)
    : proto.Sentence :=
  fold_left addAttr attrs
    {| proto.Word := verb; proto.Tag := ""; proto.List := [];
       proto.Map := ∅ |}.

(** What the tests of [readLength] make of each value of the first byte,
    checked on all 256 of them. *)
Definition firstByte_ok (b : Z) : bool :=
  if b <? 0x80 then
    Z.land b 0x80 =? 0x00
  else if b <? 0xC0 then
    negb (Z.land b 0x80 =? 0x00) && (Z.land b 0xC0 =? 0x80)
    && (Z.land b (Z.lnot 0xC0) =? b - 0x80)
  else if b <? 0xE0 then
    negb (Z.land b 0x80 =? 0x00) && negb (Z.land b 0xC0 =? 0x80)
    && (Z.land b 0xE0 =? 0xC0) && (Z.land b (Z.lnot 0xE0) =? b - 0xC0)
  else if b <? 0xF0 then
    negb (Z.land b 0x80 =? 0x00) && negb (Z.land b 0xC0 =? 0x80)
    && negb (Z.land b 0xE0 =? 0xC0) && (Z.land b 0xF0 =? 0xE0)
    && (Z.land b (Z.lnot 0xF0) =? b - 0xE0)
  else if b <? 0xF8 then
    negb (Z.land b 0x80 =? 0x00) && negb (Z.land b 0xC0 =? 0x80)
    && negb (Z.land b 0xE0 =? 0xC0) && negb (Z.land b 0xF0 =? 0xE0)
    && (Z.land b 0xF8 =? 0xF0)
  else
    negb (Z.land b 0x80 =? 0x00) && negb (Z.land b 0xC0 =? 0x80)
    && negb (Z.land b 0xE0 =? 0xC0) && negb (Z.land b 0xF0 =? 0xE0)
    && negb (Z.land b 0xF8 =? 0xF0).

(** [frame] is a framing of [word] that the reader accepts: whatever
    follows it, [readWord] returns the bytes of [word] and leaves what
    follows.  The length prefix need not be the shortest one. *)
Definition reads_as (frame : list Z) (word : string) : Prop :=
  forall (sd : bool) (rest : list Z),
    proto.readWord sd (proto.mkReader (frame ++ rest))
    = (inr (bytes_of_string word), proto.mkReader rest).

(** One sentence through the writer, as [RunArgs] writes it: begin, the
    words in order, end. *)
Definition writeSentence (words : list string) (w : proto.writer)
    : option error * proto.writer :=
  proto.EndSentence
    (fold_left (fun w word => proto.WriteWord word w) words
       (proto.BeginSentence w)).

(** The writes and the flush a sentence consists of: two writes per word,
    two for the closing empty word, one flush. *)
Inductive writer_op : Type :=
| OpWrite (b : list Z)
| OpFlush.

Definition call_of (op : writer_op) : proto.io_call :=
  match op with
  | OpWrite b => proto.CallWrite b
  | OpFlush => proto.CallFlush
  end.

Definition runOp (w : proto.writer) (op : writer_op) : proto.writer :=
  match op with
  | OpWrite b => proto.write b w
  | OpFlush => proto.flush w
  end.

Definition word_ops (word : string) : list writer_op :=
  [OpWrite (proto.encodeLength (Z.of_nat (length (bytes_of_string word))));
   OpWrite (bytes_of_string word)].

Definition sentence_ops (words : list string) : list writer_op :=
  flat_map word_ops (words ++ [""]) ++ [OpFlush].

(** The contract in the words of the specification: each write or flush
    arms the deadline and is made, until one fails; what follows the
    failed one is skipped and the failure is the sentence's error. *)
Fixpoint failFast (ops : list writer_op) (bw : proto.bufio_Writer)
    : option error * proto.bufio_Writer :=
  match ops with
  | [] => (None, bw)
  | op :: ops' =>
      let armed :=
        {| proto.results := proto.results bw;
           proto.calls := proto.calls bw ++ [proto.CallSetWriteDeadline] |} in
      match proto.bufio_call (call_of op) armed with
      | (Some e, bw') => (Some e, bw')
      | (None, bw') => failFast ops' bw'
      end
  end.

(** The calls on the connection that making [ops] amounts to. *)
Definition armed_calls (ops : list writer_op) : list proto.io_call :=
  flat_map (fun op => [proto.CallSetWriteDeadline; call_of op]) ops.

(** A word made of space characters only (the empty word included). *)
Definition blank (word : string) : Prop :=
  Forall (fun ch => ch = " "%char) (list_ascii_of_string word).

(** A client on a fresh connection on which every call succeeds. *)
Definition freshClient (async : bool) (timeout : Z) : routeros.Client :=
  {| routeros.r := proto.mkReader [];
     routeros.w :=
       {| proto.bufferedWriter := {| proto.results := []; proto.calls := [] |};
          proto.err := None; proto.locked := false |};
     routeros.closing := false;
     routeros.async := async;
     routeros.lastTag := 0;
     routeros.tags := if async then Some ∅ else None;
     routeros.timeout := timeout |}.

(** A device that answers every command with [!done =ret=<ret>]: the
    [readReply] of a synchronous client talking to it. *)
Definition challengeReply (ret : string)
    : proto.reader -> (option routeros.Reply * option error) * proto.reader :=
  fun r =>
    ((Some {| routeros.Re := [];
              routeros.Done := Some (sentence_of "!done" [PairWord "ret" ret]) |},
      None), r).

(** The tags of the asynchronous commands that [n] successive calls of
    [endCommandAsync] register.  [lastTag] is advanced by one atomic add,
    so concurrent allocations take place in some order, one after the
    other, as here. *)
Fixpoint asyncTags (n : nat) (c : routeros.Client) : list string :=
  match n with
  | O => []
  | S n' =>
      match routeros.endCommandAsync c with
      | (inr a, c') => routeros.tag a :: asyncTags n' c'
      | (inl _, c') => asyncTags n' c'
      end
  end.

(** The connection and the writer never hold the client's own
    async-timeout error: that value is made in [RunArgs] alone. *)
Definition foreign (o : option error) : Prop := o <> Some errAsyncTimeout.

Definition writer_foreign (w : proto.writer) : Prop :=
  foreign (proto.err w)
  /\ Forall foreign (proto.results (proto.bufferedWriter w)).

(** The number of bytes that follow a first length byte, as the marker
    bits of that byte announce it to [readLength]. *)
Definition continuation (b0 : Z) : nat :=
  if b0 <? 0x80 then 0
  else if b0 <? 0xC0 then 1
  else if b0 <? 0xE0 then 2
  else if b0 <? 0xF0 then 3
  else if b0 <? 0xF8 then 4
  else 0.

(** The key-to-value map that a list of pairs amounts to when each pair
    is inserted in order. *)
Definition mapOf (pairs : list proto.Pair) : gmap string string :=
  fold_left (fun m p => <[proto.Key p := proto.Value p]> m) pairs ∅.

(** The bytes handed to the buffered connection by the [Write] calls of
    a log, in order. *)
Definition written (cs : list proto.io_call) : list Z :=
  flat_map (fun c => match c with
                     | proto.CallWrite b => b
                     | _ => []
                     end) cs.

(** What [ReadSentence] keeps true of the sentence it builds: the map
    is the pairs inserted in order, and without a verb there is neither
    a tag nor a pair. *)
Definition sentence_inv (sen : proto.Sentence) : Prop :=
  proto.Map sen = mapOf (proto.List sen)
  /\ (proto.Word sen = "" -> proto.Tag sen = "" /\ proto.List sen = []).

(** [n] calls of [ReadSentence] in a row, as a caller that collects the
    sentences of a reply makes them; the first error ends the run. *)
Fixpoint ReadSentences (n : nat) (setDeadline : bool)
    : proto.M (list proto.Sentence) :=
  match n with
  | O => proto.ret []
  | S n' =>
      proto.bind (proto.ReadSentence setDeadline) (fun sen =>
      proto.bind (ReadSentences n' setDeadline) (fun sens =>
      proto.ret (sen :: sens)))
  end.

(** The words of a sentence on the wire: verb, attribute words, and the
    empty word that ends it. *)
Definition sentence_words (s : string * list attrWord) : list string :=
  fst s :: map render (snd s) ++ [""].

(** client.go, [Client.Close]: under the mutex, a client that is already
    closing is left alone; otherwise the flag is set and the connection
    is closed.  The second component tells whether [conn.Close] was
    called. *)
Definition Close (c : routeros.Client) : routeros.Client * bool :=
  if routeros.closing c then (c, false)
  else
    ({| routeros.r := routeros.r c; routeros.w := routeros.w c;
        routeros.closing := true; routeros.async := routeros.async c;
        routeros.lastTag := routeros.lastTag c;
        routeros.tags := routeros.tags c;
        routeros.timeout := routeros.timeout c |}, true).

(** [n] calls of [Close] in a row, and how many of them closed the
    connection. *)
Fixpoint CloseTimes (n : nat) (c : routeros.Client) : routeros.Client * nat :=
  match n with
  | O => (c, O)
  | S n' =>
      let '(c1, closed) := Close c in
      let '(c2, k) := CloseTimes n' c1 in
      (c2, ((if closed then 1 else 0) + k)%nat)
  end.

(** * Properties *)

(** ** Bytes and machine integers *)

Lemma byte_cases (P : Z -> bool) :
  forallb P (map Z.of_nat (seq 0 256)) = true ->
  forall b, is_byte b -> P b = true.
Proof.
  intros Hall b [Hlo Hhi].
  rewrite forallb_forall in Hall. apply Hall.
  rewrite <- (Z2Nat.id b) by lia.
  apply in_map, in_seq. lia.
Qed.

Lemma int64_small (x : Z) : - 2 ^ 63 <= x < 2 ^ 63 -> int64 x = x.
Proof.
  intros H. unfold int64. rewrite Z.mod_small; lia.
Qed.

Lemma lor_disjoint_add (hi lo k : Z) :
  0 <= k -> 0 <= lo < 2 ^ k -> Z.lor (hi * 2 ^ k) lo = hi * 2 ^ k + lo.
Proof.
  intros Hk Hlo.
  assert (Hland : Z.land (hi * 2 ^ k) lo = 0).
  { apply Z.bits_inj'. intros n Hn.
    rewrite Z.land_spec, Z.bits_0.
    destruct (Z.lt_ge_cases n k) as [Hlt | Hge].
    - rewrite Z.mul_pow2_bits_low by lia. reflexivity.
    - rewrite <- (Z.mod_small lo (2 ^ k)) by lia.
      rewrite Z.mod_pow2_bits_high by lia. apply andb_false_r. }
  rewrite <- Z.lxor_lor by exact Hland.
  symmetry. apply Z.add_nocarry_lxor. exact Hland.
Qed.

Lemma shl_lor_byte (x b : Z) :
  0 <= x < 2 ^ 48 -> is_byte b ->
  Z.lor (int64 (Z.shiftl x 8)) b = x * 256 + b.
Proof.
  intros Hx Hb. unfold is_byte in Hb.
  rewrite Z.shiftl_mul_pow2 by lia.
  rewrite int64_small by lia.
  apply (lor_disjoint_add x b 8); lia.
Qed.

Lemma shl_lor (x n k : Z) :
  0 <= k <= 24 -> 0 <= x < 256 -> 0 <= n < 2 ^ k ->
  Z.lor (int64 (Z.shiftl x k)) n = x * 2 ^ k + n.
Proof.
  intros Hk Hx Hn.
  rewrite Z.shiftl_mul_pow2 by lia.
  assert (0 < 2 ^ k <= 2 ^ 24)
    by (split; [apply Z.pow_pos_nonneg | apply Z.pow_le_mono_r]; lia).
  rewrite int64_small by nia.
  apply lor_disjoint_add; lia.
Qed.

Lemma shl_lor_first (b : Z) : Z.lor (int64 (Z.shiftl 0 8)) b = b.
Proof. reflexivity. Qed.

Lemma byte_shiftr (l k : Z) : 0 <= k -> byte (Z.shiftr l k) = (l / 2 ^ k) mod 256.
Proof.
  intros Hk. unfold byte. rewrite Z.shiftr_div_pow2 by lia. reflexivity.
Qed.

Lemma is_byte_byte (x : Z) : is_byte (byte x).
Proof. unfold is_byte, byte. apply Z.mod_pos_bound. lia. Qed.

(** ** The length prefix *)

Import proto.

Implicit Types (sd : bool) (rest : list Z).

Lemma readNumber_1 sd rest (b : Z) :
  readNumber 1 sd (mkReader (b :: rest)) = (inr b, mkReader rest).
Proof.
  unfold readNumber, bind, readFull, ret. simpl.
  rewrite drop_0, shl_lor_first. reflexivity.
Qed.

Lemma readNumber_2 sd rest (b1 b2 : Z) :
  is_byte b1 -> is_byte b2 ->
  readNumber 2 sd (mkReader (b1 :: b2 :: rest))
  = (inr (b1 * 256 + b2), mkReader rest).
Proof.
  intros H1 H2. unfold readNumber, bind, readFull, ret. simpl.
  rewrite drop_0. unfold is_byte in *.
  rewrite shl_lor_first.
  rewrite shl_lor_byte by (unfold is_byte; lia). reflexivity.
Qed.

Lemma readNumber_3 sd rest (b1 b2 b3 : Z) :
  is_byte b1 -> is_byte b2 -> is_byte b3 ->
  readNumber 3 sd (mkReader (b1 :: b2 :: b3 :: rest))
  = (inr ((b1 * 256 + b2) * 256 + b3), mkReader rest).
Proof.
  intros H1 H2 H3. unfold readNumber, bind, readFull, ret. simpl.
  rewrite drop_0. unfold is_byte in *.
  rewrite shl_lor_first.
  rewrite (shl_lor_byte b1 b2) by (unfold is_byte; lia).
  rewrite (shl_lor_byte (b1 * 256 + b2) b3) by (unfold is_byte; lia).
  reflexivity.
Qed.

Lemma readNumber_4 sd rest (b1 b2 b3 b4 : Z) :
  is_byte b1 -> is_byte b2 -> is_byte b3 -> is_byte b4 ->
  readNumber 4 sd (mkReader (b1 :: b2 :: b3 :: b4 :: rest))
  = (inr (((b1 * 256 + b2) * 256 + b3) * 256 + b4), mkReader rest).
Proof.
  intros H1 H2 H3 H4. unfold readNumber, bind, readFull, ret. simpl.
  rewrite drop_0. unfold is_byte in *.
  rewrite shl_lor_first.
  rewrite (shl_lor_byte b1 b2) by (unfold is_byte; lia).
  rewrite (shl_lor_byte (b1 * 256 + b2) b3) by (unfold is_byte; lia).
  rewrite (shl_lor_byte ((b1 * 256 + b2) * 256 + b3) b4)
    by (unfold is_byte; lia).
  reflexivity.
Qed.

Lemma firstByte_ok_all (b : Z) : is_byte b -> firstByte_ok b = true.
Proof. apply byte_cases. vm_compute. reflexivity. Qed.

Ltac first_byte b Hb :=
  let H := fresh "Hfb" in
  pose proof (firstByte_ok_all b Hb) as H;
  unfold firstByte_ok in H;
  repeat match type of H with
         | context [?x <? ?y] => destruct (Z.ltb_spec x y); try lia
         end;
  repeat match type of H with
         | (_ && _ = true) => apply andb_prop in H; destruct H as [H ?]
         end;
  repeat match goal with
         | E : negb _ = true |- _ => apply negb_true_iff in E
         | E : (_ =? _) = true |- _ => apply Z.eqb_eq in E
         end.

Lemma readLength_1byte sd rest (b : Z) :
  0 <= b < 0x80 ->
  readLength sd (mkReader (b :: rest)) = (inr b, mkReader rest).
Proof.
  intros Hb. assert (Hb' : is_byte b) by (unfold is_byte; lia).
  first_byte b Hb'.
  unfold readLength, bind. rewrite readNumber_1.
  rewrite Hfb. reflexivity.
Qed.

Ltac run_tests :=
  repeat match goal with
         | E : (_ =? _) = false |- _ => rewrite E
         | E : Z.land _ _ = _ |- _ => rewrite E
         end;
  rewrite ?Z.eqb_refl; cbv iota.

Lemma readLength_2bytes sd rest (b0 b1 : Z) :
  0x80 <= b0 < 0xC0 -> is_byte b1 ->
  readLength sd (mkReader (b0 :: b1 :: rest))
  = (inr ((b0 - 0x80) * 256 + b1), mkReader rest).
Proof.
  intros Hb H1. assert (Hb' : is_byte b0) by (unfold is_byte; lia).
  first_byte b0 Hb'.
  unfold readLength, bind. rewrite readNumber_1. run_tests.
  rewrite readNumber_1. unfold ret.
  rewrite shl_lor_byte by (unfold is_byte in *; lia). reflexivity.
Qed.

Lemma readLength_3bytes sd rest (b0 b1 b2 : Z) :
  0xC0 <= b0 < 0xE0 -> is_byte b1 -> is_byte b2 ->
  readLength sd (mkReader (b0 :: b1 :: b2 :: rest))
  = (inr ((b0 - 0xC0) * 65536 + (b1 * 256 + b2)), mkReader rest).
Proof.
  intros Hb H1 H2. assert (Hb' : is_byte b0) by (unfold is_byte; lia).
  first_byte b0 Hb'.
  unfold readLength, bind. rewrite readNumber_1. run_tests.
  rewrite readNumber_2 by assumption. unfold ret.
  rewrite shl_lor by (unfold is_byte in *; lia). reflexivity.
Qed.

Lemma readLength_4bytes sd rest (b0 b1 b2 b3 : Z) :
  0xE0 <= b0 < 0xF0 -> is_byte b1 -> is_byte b2 -> is_byte b3 ->
  readLength sd (mkReader (b0 :: b1 :: b2 :: b3 :: rest))
  = (inr ((b0 - 0xE0) * 16777216 + ((b1 * 256 + b2) * 256 + b3)),
     mkReader rest).
Proof.
  intros Hb H1 H2 H3. assert (Hb' : is_byte b0) by (unfold is_byte; lia).
  first_byte b0 Hb'.
  unfold readLength, bind. rewrite readNumber_1. run_tests.
  rewrite readNumber_3 by assumption. unfold ret.
  rewrite shl_lor by (unfold is_byte in *; lia). reflexivity.
Qed.

Lemma readLength_5bytes sd rest (b0 b1 b2 b3 b4 : Z) :
  0xF0 <= b0 < 0xF8 ->
  is_byte b1 -> is_byte b2 -> is_byte b3 -> is_byte b4 ->
  readLength sd (mkReader (b0 :: b1 :: b2 :: b3 :: b4 :: rest))
  = (inr (((b1 * 256 + b2) * 256 + b3) * 256 + b4), mkReader rest).
Proof.
  intros Hb H1 H2 H3 H4. assert (Hb' : is_byte b0) by (unfold is_byte; lia).
  first_byte b0 Hb'.
  unfold readLength, bind. rewrite readNumber_1. run_tests.
  rewrite readNumber_4 by assumption. reflexivity.
Qed.

Lemma readLength_unmarked sd rest (b0 : Z) :
  0xF8 <= b0 <= 0xFF ->
  readLength sd (mkReader (b0 :: rest)) = (inr b0, mkReader rest).
Proof.
  intros Hb. assert (Hb' : is_byte b0) by (unfold is_byte; lia).
  first_byte b0 Hb'.
  unfold readLength, bind. rewrite readNumber_1. run_tests.
  reflexivity.
Qed.

Lemma lor_marker (x mk m k : Z) :
  mk = m * 2 ^ k -> 0 <= k -> 0 <= x < 2 ^ k -> Z.lor x mk = mk + x.
Proof.
  intros -> Hk Hx. rewrite Z.lor_comm, lor_disjoint_add by lia. lia.
Qed.

Ltac euclid := unfold is_byte; Z.div_mod_to_equations; lia.

Lemma encodeLength_1byte (l : Z) :
  0 <= l < 0x80 -> encodeLength l = [l].
Proof.
  intros H. unfold encodeLength.
  destruct (Z.ltb_spec l 0x80); [| lia].
  unfold byte. rewrite Z.mod_small by lia. reflexivity.
Qed.

Lemma encodeLength_2bytes (l : Z) :
  0x80 <= l < 0x4000 -> encodeLength l = [0x80 + l / 2 ^ 8; l mod 256].
Proof.
  intros H. unfold encodeLength.
  destruct (Z.ltb_spec l 0x80); [lia |].
  destruct (Z.ltb_spec l 0x4000); [| lia].
  rewrite byte_shiftr by lia. unfold byte.
  rewrite (Z.mod_small (l / 2 ^ 8)) by euclid.
  rewrite (lor_marker (l / 2 ^ 8) 0x80 1 7) by euclid.
  reflexivity.
Qed.

Lemma encodeLength_3bytes (l : Z) :
  0x4000 <= l < 0x200000 ->
  encodeLength l = [0xC0 + l / 2 ^ 16; (l / 2 ^ 8) mod 256; l mod 256].
Proof.
  intros H. unfold encodeLength.
  destruct (Z.ltb_spec l 0x80); [lia |].
  destruct (Z.ltb_spec l 0x4000); [lia |].
  destruct (Z.ltb_spec l 0x200000); [| lia].
  rewrite !byte_shiftr by lia. unfold byte.
  rewrite (Z.mod_small (l / 2 ^ 16)) by euclid.
  rewrite (lor_marker (l / 2 ^ 16) 0xC0 3 6) by euclid.
  reflexivity.
Qed.

Lemma encodeLength_4bytes (l : Z) :
  0x200000 <= l < 0x10000000 ->
  encodeLength l
  = [0xE0 + l / 2 ^ 24; (l / 2 ^ 16) mod 256; (l / 2 ^ 8) mod 256;
     l mod 256].
Proof.
  intros H. unfold encodeLength.
  destruct (Z.ltb_spec l 0x80); [lia |].
  destruct (Z.ltb_spec l 0x4000); [lia |].
  destruct (Z.ltb_spec l 0x200000); [lia |].
  destruct (Z.ltb_spec l 0x10000000); [| lia].
  rewrite !byte_shiftr by lia. unfold byte.
  rewrite (Z.mod_small (l / 2 ^ 24)) by euclid.
  rewrite (lor_marker (l / 2 ^ 24) 0xE0 7 5) by euclid.
  reflexivity.
Qed.

Lemma encodeLength_5bytes (l : Z) :
  0x10000000 <= l ->
  encodeLength l
  = [0xF0; (l / 2 ^ 24) mod 256; (l / 2 ^ 16) mod 256;
     (l / 2 ^ 8) mod 256; l mod 256].
Proof.
  intros H. unfold encodeLength.
  destruct (Z.ltb_spec l 0x80); [lia |].
  destruct (Z.ltb_spec l 0x4000); [lia |].
  destruct (Z.ltb_spec l 0x200000); [lia |].
  destruct (Z.ltb_spec l 0x10000000); [lia |].
  rewrite !byte_shiftr by lia. reflexivity.
Qed.

Lemma readLength_encodeLength sd rest (l : Z) :
  0 <= l < 2 ^ 32 ->
  readLength sd (mkReader (encodeLength l ++ rest)) = (inr l, mkReader rest).
Proof.
  intros H.
  destruct (Z.lt_ge_cases l 0x80);
    [| destruct (Z.lt_ge_cases l 0x4000);
       [| destruct (Z.lt_ge_cases l 0x200000);
          [| destruct (Z.lt_ge_cases l 0x10000000)]]].
  - rewrite encodeLength_1byte by lia. simpl.
    apply readLength_1byte. lia.
  - rewrite encodeLength_2bytes by lia. simpl.
    rewrite readLength_2bytes by euclid. do 2 f_equal. euclid.
  - rewrite encodeLength_3bytes by lia. simpl.
    rewrite readLength_3bytes by euclid. do 2 f_equal. euclid.
  - rewrite encodeLength_4bytes by lia. simpl.
    rewrite readLength_4bytes by euclid. do 2 f_equal. euclid.
  - rewrite encodeLength_5bytes by lia. simpl.
    rewrite readLength_5bytes by euclid. do 2 f_equal. euclid.
Qed.


(** Above 32 bits the prefix keeps the low four bytes only. *)
Example encodeLength_truncates_above_32_bits :
  encodeLength (2 ^ 32 + 5) = [0xF0; 0; 0; 0; 5]
  /\ readLength false (mkReader (encodeLength (2 ^ 32 + 5)))
     = (inr 5, mkReader []).
Proof. split; reflexivity. Qed.

(** C1. For every length [L] with [0 <= L < 2^32] (which includes every
    length up to [0x10000080]), [readLength] on the bytes of
    [encodeLength L] returns [L] and consumes exactly those bytes, and
    the encoding is that of the five size classes: one byte for
    [L < 0x80]; two bytes, the first with top bits [10], for [L < 0x4000];
    three bytes, top bits [110], for [L < 0x200000]; four bytes, top bits
    [1110], for [L < 0x10000000]; otherwise [0xF0] and the four bytes of
    [L], most significant first. *)
Theorem encodeLength_roundtrip_size_classes (L : Z) :
  0 <= L < 2 ^ 32 ->
  (forall sd rest,
     proto.readLength sd (proto.mkReader (proto.encodeLength L ++ rest))
     = (inr L, proto.mkReader rest))
  /\ (L < 0x80 -> proto.encodeLength L = [L])
  /\ (0x80 <= L < 0x4000 ->
      proto.encodeLength L = [0x80 + L / 2 ^ 8; L mod 2 ^ 8]
      /\ Z.shiftr (0x80 + L / 2 ^ 8) 6 = 2)
  /\ (0x4000 <= L < 0x200000 ->
      proto.encodeLength L
      = [0xC0 + L / 2 ^ 16; (L / 2 ^ 8) mod 2 ^ 8; L mod 2 ^ 8]
      /\ Z.shiftr (0xC0 + L / 2 ^ 16) 5 = 6)
  /\ (0x200000 <= L < 0x10000000 ->
      proto.encodeLength L
      = [0xE0 + L / 2 ^ 24; (L / 2 ^ 16) mod 2 ^ 8; (L / 2 ^ 8) mod 2 ^ 8;
         L mod 2 ^ 8]
      /\ Z.shiftr (0xE0 + L / 2 ^ 24) 4 = 14)
  /\ (0x10000000 <= L ->
      proto.encodeLength L
      = [0xF0; L / 2 ^ 24; (L / 2 ^ 16) mod 2 ^ 8; (L / 2 ^ 8) mod 2 ^ 8;
         L mod 2 ^ 8]).
Proof.
  intros HL. repeat split.
  - intros sd rest. apply readLength_encodeLength. exact HL.
  - intros H. apply encodeLength_1byte. lia.
  - apply encodeLength_2bytes. lia.
  - rewrite Z.shiftr_div_pow2 by lia. euclid.
  - apply encodeLength_3bytes. lia.
  - rewrite Z.shiftr_div_pow2 by lia. euclid.
  - apply encodeLength_4bytes. lia.
  - rewrite Z.shiftr_div_pow2 by lia. euclid.
  - intros H. rewrite encodeLength_5bytes by lia.
    rewrite (Z.mod_small (L / 2 ^ 24)) by euclid. reflexivity.
Qed.

Lemma encodeLength_roundtrip_size_classes_witness :
  0 <= 0x10000080 < 2 ^ 32
  /\ proto.readLength false
       (proto.mkReader (proto.encodeLength 0x10000080 ++ [0x21]))
     = (inr 0x10000080, proto.mkReader [0x21])
  /\ proto.encodeLength 0x10000080 = [0xF0; 0x10; 0x00; 0x00; 0x80].
Proof.
  assert (H : 0 <= 0x10000080 < 2 ^ 32) by lia.
  split; [exact H |].
  pose proof (encodeLength_roundtrip_size_classes 0x10000080 H)
    as (Hrt & _ & _ & _ & _ & H5).
  split; [apply Hrt | apply H5; lia].
Defined.

(** C8. A first length byte from [0xF8] to [0xFF] passes none of the five
    tests of [readLength]; [readLength] then returns the value of that
    byte as the length, without an error and without reading any further
    byte. *)
Theorem readLength_all_marker_bits_set (b : Z) (sd : bool) (rest : list Z) :
  0xF8 <= b <= 0xFF ->
  proto.readLength sd (proto.mkReader (b :: rest))
  = (inr b, proto.mkReader rest)
  /\ Z.land b 0x80 <> 0x00 /\ Z.land b 0xC0 <> 0x80
  /\ Z.land b 0xE0 <> 0xC0 /\ Z.land b 0xF0 <> 0xE0
  /\ Z.land b 0xF8 <> 0xF0.
Proof.
  intros Hb. split; [apply readLength_unmarked; exact Hb |].
  assert (Hb' : is_byte b) by (unfold is_byte; lia).
  pose proof (firstByte_ok_all b Hb') as Hfb. unfold firstByte_ok in Hfb.
  repeat match type of Hfb with
         | context [?x <? ?y] => destruct (Z.ltb_spec x y); try lia
         end.
Qed.

Lemma readLength_all_marker_bits_set_witness :
  0xF8 <= 0xFC <= 0xFF
  /\ proto.readLength true (proto.mkReader [0xFC; 0x01; 0x02])
     = (inr 0xFC, proto.mkReader [0x01; 0x02]).
Proof.
  assert (H : 0xF8 <= 0xFC <= 0xFF) by lia.
  split; [exact H |].
  apply (readLength_all_marker_bits_set 0xFC true [0x01; 0x02] H).
Defined.

(** ** Words on the wire *)

Lemma string_of_bytes_of_string (s : string) :
  string_of_bytes (bytes_of_string s) = s.
Proof.
  unfold string_of_bytes, bytes_of_string.
  rewrite map_map.
  rewrite (map_ext _ (fun c => c)).
  - rewrite map_id. apply string_of_list_ascii_of_string.
  - intros c. rewrite N2Z.id. apply ascii_N_embedding.
Qed.

Lemma bytes_of_string_app (a b : string) :
  bytes_of_string (a +:+ b) = bytes_of_string a ++ bytes_of_string b.
Proof.
  unfold bytes_of_string. rewrite <- map_app. f_equal.
  induction a as [| c a IH]; simpl; [reflexivity | now rewrite IH].
Qed.

Lemma bytes_of_string_length (s : string) :
  length (bytes_of_string s) = String.length s.
Proof.
  unfold bytes_of_string. rewrite length_map.
  induction s as [| c s IH]; simpl; [reflexivity | now rewrite IH].
Qed.

Lemma bytes_of_string_nil (s : string) : bytes_of_string s = [] -> s = "".
Proof. destruct s; [reflexivity | discriminate]. Qed.

Lemma readFull_app sd (b rest : list Z) :
  readFull (length b) sd (mkReader (b ++ rest)) = (inr b, mkReader rest).
Proof.
  unfold readFull. simpl.
  destruct (Nat.leb_spec (length b) (length (b ++ rest))) as [_ | H].
  - rewrite take_app_length, drop_app_length. reflexivity.
  - rewrite length_app in H. lia.
Qed.

Lemma readWord_encodeWord sd rest (word : string) :
  Z.of_nat (String.length word) < 2 ^ 32 ->
  readWord sd (mkReader (encodeWord word ++ rest))
  = (inr (bytes_of_string word), mkReader rest).
Proof.
  intros Hlen. unfold readWord, bind, encodeWord.
  rewrite <- app_assoc.
  rewrite readLength_encodeLength
    by (rewrite bytes_of_string_length; lia).
  rewrite Nat2Z.id. apply readFull_app.
Qed.

Lemma encodeWord_reads_as (word : string) :
  Z.of_nat (String.length word) < 2 ^ 32 -> reads_as (encodeWord word) word.
Proof. intros H sd rest. apply readWord_encodeWord. exact H. Qed.

Lemma wire_reads_as (words : list string) :
  Forall (fun word => Z.of_nat (String.length word) < 2 ^ 32) words ->
  Forall2 reads_as (map encodeWord words) words.
Proof.
  induction 1 as [| word words Hw _ IH]; cbn [map]; constructor.
  - apply encodeWord_reads_as. exact Hw.
  - exact IH.
Qed.

Example reads_as_longer_prefix :
  reads_as ([0x80; 0x03] ++ bytes_of_string "!re") "!re"
  /\ reads_as ([0xF0; 0x00; 0x00; 0x00; 0x00]) "".
Proof. split; intros sd rest; reflexivity. Qed.

(** ** The sentence reader *)

(** Every successful [readWord] consumes at least one byte, so the fuel
    of [ReadSentence] is never used up: any two amounts of fuel above the
    number of bytes left give the same result. *)
Lemma readFull_consumes (n : nat) sd (r r' : reader) (b : list Z) :
  readFull n sd r = (inr b, r') ->
  (length (bufferedReader r') + n = length (bufferedReader r))%nat.
Proof.
  unfold readFull.
  destruct (Nat.leb_spec n (length (bufferedReader r))) as [Hle | Hlt].
  - intros [= _ <-]. cbn [bufferedReader]. rewrite length_drop. lia.
  - destruct (bufferedReader r); discriminate.
Qed.

Lemma readNumber_consumes (n : nat) sd (r r' : reader) (x : Z) :
  readNumber n sd r = (inr x, r') ->
  (length (bufferedReader r') + n = length (bufferedReader r))%nat.
Proof.
  unfold readNumber, bind, ret.
  destruct (readFull n sd r) as [[e | b] r1] eqn:Hf; [discriminate |].
  intros [= _ <-]. apply (readFull_consumes _ _ _ _ _ Hf).
Qed.

Lemma readLength_consumes sd (r r' : reader) (l : Z) :
  readLength sd r = (inr l, r') ->
  (length (bufferedReader r') < length (bufferedReader r))%nat.
Proof.
  unfold readLength, bind at 1.
  destruct (readNumber 1 sd r) as [[e | l0] r1] eqn:H1; [discriminate |].
  apply readNumber_consumes in H1.
  repeat match goal with
         | |- context [if ?c then _ else _] => destruct c
         end;
    unfold bind, ret;
    try match goal with
        | |- context [readNumber ?k true r1] =>
            destruct (readNumber k true r1) as [[e | n] r2] eqn:H2;
            [discriminate | apply readNumber_consumes in H2]
        end;
    intros [= _ <-]; lia.
Qed.

Lemma readWord_consumes sd (r r' : reader) (b : list Z) :
  readWord sd r = (inr b, r') ->
  (length (bufferedReader r') < length (bufferedReader r))%nat.
Proof.
  unfold readWord, bind.
  destruct (readLength sd r) as [[e | l] r1] eqn:Hl; [discriminate |].
  apply readLength_consumes in Hl.
  intros Hf. apply readFull_consumes in Hf. lia.
Qed.

Lemma ReadSentence_loop_fuel (fuel1 : nat) :
  forall (fuel2 : nat) sd (sen : Sentence) (r : reader),
    (length (bufferedReader r) < fuel1)%nat ->
    (length (bufferedReader r) < fuel2)%nat ->
    ReadSentence_loop fuel1 sd sen r = ReadSentence_loop fuel2 sd sen r.
Proof.
  induction fuel1 as [| fuel1 IH]; intros fuel2 sd sen r H1 H2; [lia |].
  destruct fuel2 as [| fuel2]; [lia |].
  cbn [ReadSentence_loop]. unfold bind.
  destruct (readWord sd r) as [[e | b] r'] eqn:Hw; [reflexivity |].
  apply readWord_consumes in Hw.
  destruct (length b =? 0)%nat; [reflexivity |].
  destruct (sentenceWord sen b) as [e | sen']; [reflexivity |].
  apply IH; lia.
Qed.

Lemma reads_as_length (frame : list Z) (word : string) :
  reads_as frame word -> (1 <= length frame)%nat.
Proof.
  intros H. destruct frame as [| b frame]; [| simpl; lia].
  specialize (H false []). discriminate H.
Qed.

Lemma frames_length (frames : list (list Z)) (words : list string) :
  Forall2 reads_as frames words ->
  (length words <= length (concat frames))%nat.
Proof.
  induction 1 as [| frame word frames words Hf _ IH]; cbn [concat length].
  - lia.
  - rewrite length_app. pose proof (reads_as_length _ _ Hf). lia.
Qed.

Lemma ReadSentence_loop_words sd (frames : list (list Z))
    (words : list string) :
  Forall2 reads_as frames words ->
  forall (sen sen' : Sentence) (fuel : nat) (tail : list Z),
    Forall (fun word => word <> "") words ->
    sentenceWords sen words = inr sen' ->
    ReadSentence_loop (length words + fuel) sd sen
      (mkReader (concat frames ++ tail))
    = ReadSentence_loop fuel sd sen' (mkReader tail).
Proof.
  induction 1 as [| frame word frames words Hf _ IH];
    intros sen sen' fuel tail Hne Hws.
  - simpl in *. congruence.
  - inversion Hne as [| ? ? Hw Hne']; subst.
    simpl in Hws.
    destruct (sentenceWord sen (bytes_of_string word)) as [e | sen1] eqn:Hsw;
      [discriminate |].
    cbn [concat]. rewrite <- app_assoc.
    change (length (word :: words) + fuel)%nat
      with (S (length words + fuel)).
    cbn [ReadSentence_loop]. unfold bind at 1.
    rewrite Hf, bytes_of_string_length.
    destruct (Nat.eqb_spec (String.length word) 0) as [H0 | _].
    { destruct word; [congruence | discriminate H0]. }
    rewrite Hsw. apply IH; assumption.
Qed.

Lemma ReadSentence_loop_end sd (sen : Sentence) (fuel : nat) rest
    (frame : list Z) :
  reads_as frame "" ->
  ReadSentence_loop (S fuel) sd sen (mkReader (frame ++ rest))
  = (inr sen, mkReader rest).
Proof.
  intros Hf. cbn [ReadSentence_loop]. unfold bind at 1.
  rewrite Hf. reflexivity.
Qed.

Lemma ReadSentence_loop_invalid sd (sen : Sentence) (fuel : nat) rest
    (frame : list Z) (word : string) (e : error) :
  reads_as frame word -> word <> "" ->
  sentenceWord sen (bytes_of_string word) = inl e ->
  ReadSentence_loop (S fuel) sd sen (mkReader (frame ++ rest))
  = (inl e, mkReader rest).
Proof.
  intros Hf Hne Hw.
  cbn [ReadSentence_loop]. unfold bind at 1.
  rewrite Hf, bytes_of_string_length.
  destruct (Nat.eqb_spec (String.length word) 0) as [H0 | _].
  { destruct word; [congruence | discriminate H0]. }
  rewrite Hw. reflexivity.
Qed.

Lemma ReadSentence_fuel (frames : list (list Z)) (words : list string)
    (tail : list Z) :
  Forall2 reads_as frames words ->
  exists fuel,
    S (length (concat frames ++ tail)) = (length words + S fuel)%nat.
Proof.
  intros H.
  exists (length (concat frames ++ tail) - length words)%nat.
  pose proof (frames_length _ _ H). rewrite length_app in *. lia.
Qed.

Lemma byte_of_ascii_inj (c d : ascii) :
  Z.of_N (N_of_ascii c) = Z.of_N (N_of_ascii d) -> c = d.
Proof.
  intros H. apply N2Z.inj in H.
  rewrite <- (ascii_N_embedding c), <- (ascii_N_embedding d).
  now rewrite H.
Qed.

Lemma bytes_of_string_cons (c : ascii) (s : string) :
  bytes_of_string (String c s) = Z.of_N (N_of_ascii c) :: bytes_of_string s.
Proof. reflexivity. Qed.

Lemma noEq_cons (c : ascii) (k : string) :
  noEq (String c k) -> c <> "="%char /\ noEq k.
Proof.
  unfold noEq. simpl. intros H. split.
  - intros ->. apply H. now left.
  - intros Hin. apply H. now right.
Qed.

Lemma IndexByte_noEq_app (k : string) (tail : list Z) :
  noEq k ->
  IndexByte (bytes_of_string k ++ 61 :: tail) 61
  = Some (length (bytes_of_string k)).
Proof.
  induction k as [| c k IH]; intros Hk.
  - reflexivity.
  - apply noEq_cons in Hk as [Hc Hk].
    rewrite bytes_of_string_cons. cbn [app IndexByte length].
    destruct (Z.eqb_spec (Z.of_N (N_of_ascii c)) 61) as [E | _].
    + exfalso. apply Hc. apply byte_of_ascii_inj. exact E.
    + rewrite IH by exact Hk. reflexivity.
Qed.

Lemma IndexByte_noEq (k : string) :
  noEq k -> IndexByte (bytes_of_string k) 61 = None.
Proof.
  induction k as [| c k IH]; intros Hk.
  - reflexivity.
  - apply noEq_cons in Hk as [Hc Hk].
    rewrite bytes_of_string_cons. cbn [IndexByte].
    destruct (Z.eqb_spec (Z.of_N (N_of_ascii c)) 61) as [E | _].
    + exfalso. apply Hc. apply byte_of_ascii_inj. exact E.
    + rewrite IH by exact Hk. reflexivity.
Qed.

Lemma HasPrefix_prefix (p s : string) :
  HasPrefix (bytes_of_string s) (bytes_of_string p) = String.prefix p s.
Proof.
  revert s. induction p as [| a p IH]; intros s.
  - destruct s; reflexivity.
  - destruct s as [| b s]; [reflexivity |].
    rewrite !bytes_of_string_cons. cbn [HasPrefix String.prefix].
    destruct (ascii_dec a b) as [-> | Hab].
    + rewrite Z.eqb_refl. apply IH.
    + destruct (Z.eqb_spec (Z.of_N (N_of_ascii b)) (Z.of_N (N_of_ascii a)))
        as [E | _]; [| reflexivity].
      apply byte_of_ascii_inj in E. congruence.
Qed.

Lemma sentenceWord_verb (sen : Sentence) (word : string) :
  Word sen = "" ->
  sentenceWord sen (bytes_of_string word)
  = inr {| Word := word; Tag := Tag sen; List := List sen; Map := Map sen |}.
Proof.
  intros H. unfold sentenceWord. rewrite H. cbn [String.eqb].
  rewrite string_of_bytes_of_string. reflexivity.
Qed.

Lemma prefix_tag (t : string) : String.prefix ".tag=" (".tag=" +:+ t) = true.
Proof. simpl. destruct t; reflexivity. Qed.

Lemma prefix_eq (s : string) : String.prefix "=" ("=" +:+ s) = true.
Proof. simpl. destruct s; reflexivity. Qed.

Lemma prefix_tag_eq (s : string) : String.prefix ".tag=" ("=" +:+ s) = false.
Proof. reflexivity. Qed.

Lemma SplitN2_pair (k v : string) :
  noEq k ->
  SplitN2 (drop 1 (bytes_of_string ("=" +:+ k +:+ "=" +:+ v))) 61
  = [bytes_of_string k; bytes_of_string v].
Proof.
  intros Hk.
  rewrite (bytes_of_string_app "="), (bytes_of_string_app k).
  change 1%nat with (length (bytes_of_string "=")).
  rewrite drop_app_length.
  change (bytes_of_string ("=" +:+ v)) with (61 :: bytes_of_string v).
  unfold SplitN2. rewrite IndexByte_noEq_app by exact Hk.
  rewrite take_app_length.
  replace (bytes_of_string k ++ 61 :: bytes_of_string v)
    with ((bytes_of_string k ++ [61]) ++ bytes_of_string v)
    by (rewrite <- app_assoc; reflexivity).
  rewrite (drop_app_length' (bytes_of_string k ++ [61]))
    by (rewrite length_app; simpl; lia).
  reflexivity.
Qed.

Lemma SplitN2_key (k : string) :
  noEq k ->
  SplitN2 (drop 1 (bytes_of_string ("=" +:+ k))) 61 = [bytes_of_string k].
Proof.
  intros Hk.
  rewrite (bytes_of_string_app "=").
  change 1%nat with (length (bytes_of_string "=")).
  rewrite drop_app_length.
  unfold SplitN2. rewrite IndexByte_noEq by exact Hk. reflexivity.
Qed.

Lemma sentenceWord_attr (sen : Sentence) (a : attrWord) :
  Word sen <> "" -> attr_ok a ->
  sentenceWord sen (bytes_of_string (render a)) = inr (addAttr sen a).
Proof.
  intros Hv Ha. unfold sentenceWord.
  apply String.eqb_neq in Hv. rewrite Hv.
  rewrite !HasPrefix_prefix.
  destruct a as [t | k v | k]; cbn [render addAttr attr_ok] in *.
  - rewrite prefix_tag.
    rewrite bytes_of_string_app.
    change 5%nat with (length (bytes_of_string ".tag=")).
    rewrite drop_app_length, string_of_bytes_of_string. reflexivity.
  - rewrite prefix_tag_eq, prefix_eq.
    rewrite SplitN2_pair by exact Ha.
    cbn [length Nat.eqb nth Key Value].
    rewrite !string_of_bytes_of_string. reflexivity.
  - rewrite prefix_tag_eq, prefix_eq.
    rewrite SplitN2_key by exact Ha.
    cbn [length Nat.eqb nth app Key Value].
    rewrite !string_of_bytes_of_string. reflexivity.
Qed.

Lemma sentenceWord_invalid (sen : Sentence) (word : string) :
  Word sen <> "" ->
  String.prefix ".tag=" word = false ->
  String.prefix "=" word = false ->
  sentenceWord sen (bytes_of_string word)
  = inl (ErrInvalidWord (bytes_of_string word)).
Proof.
  intros Hv Ht He. unfold sentenceWord.
  apply String.eqb_neq in Hv. rewrite Hv.
  rewrite !HasPrefix_prefix, Ht, He. reflexivity.
Qed.

Lemma addAttr_Word (sen : Sentence) (a : attrWord) :
  Word (addAttr sen a) = Word sen.
Proof. destruct a; reflexivity. Qed.

Lemma sentenceWords_attrs (attrs : list attrWord) :
  forall sen : Sentence,
    Word sen <> "" -> Forall attr_ok attrs ->
    sentenceWords sen (map render attrs) = inr (fold_left addAttr attrs sen).
Proof.
  induction attrs as [| a attrs IH]; intros sen Hv Hok.
  - reflexivity.
  - inversion Hok as [| ? ? Ha Hok']; subst.
    cbn [map sentenceWords fold_left].
    rewrite sentenceWord_attr by assumption.
    apply IH; [rewrite addAttr_Word |]; assumption.
Qed.

Lemma sentenceWords_sentence (verb : string) (attrs : list attrWord) :
  verb <> "" -> Forall attr_ok attrs ->
  sentenceWords NewSentence (verb :: map render attrs)
  = inr (sentence_of verb attrs).
Proof.
  intros Hv Hok. cbn [sentenceWords].
  rewrite sentenceWord_verb by reflexivity.
  apply sentenceWords_attrs; assumption.
Qed.

Lemma render_nonempty (a : attrWord) : render a <> "".
Proof. destruct a; discriminate. Qed.

Lemma frames_split (frames : list (list Z)) (words : list string)
    (last : string) :
  Forall2 reads_as frames (words ++ [last]) ->
  exists (front : list (list Z)) (frame : list Z),
    frames = front ++ [frame]
    /\ Forall2 reads_as front words /\ reads_as frame last.
Proof.
  intros H. apply Forall2_app_inv_r in H.
  destruct H as (front & back & Hfront & Hback & ->).
  inversion Hback as [| frame ? back' ? Hf Hnil]; subst.
  inversion Hnil; subst.
  exists front, frame. auto.
Qed.

Lemma concat_snoc (front : list (list Z)) (frame rest : list Z) :
  concat (front ++ [frame]) ++ rest = concat front ++ frame ++ rest.
Proof.
  rewrite concat_app. cbn [concat]. rewrite app_nil_r, <- app_assoc.
  reflexivity.
Qed.

Lemma words_nonempty (verb : string) (attrs : list attrWord) :
  verb <> "" -> Forall (fun word => word <> "") (verb :: map render attrs).
Proof.
  intros Hv. constructor; [exact Hv |].
  apply Forall_map, Forall_forall. intros a _. apply render_nonempty.
Qed.

Lemma ReadSentence_sentence sd rest (frames : list (list Z))
    (verb : string) (attrs : list attrWord) :
  verb <> "" -> Forall attr_ok attrs ->
  Forall2 reads_as frames (verb :: map render attrs ++ [""]) ->
  ReadSentence sd (mkReader (concat frames ++ rest))
  = (inr (sentence_of verb attrs), mkReader rest).
Proof.
  intros Hv Hok Hfr.
  change (verb :: map render attrs ++ [""])
    with ((verb :: map render attrs) ++ [""]) in Hfr.
  apply frames_split in Hfr.
  destruct Hfr as (front & frame & -> & Hfront & Hend).
  rewrite concat_snoc.
  unfold ReadSentence. cbn [bufferedReader].
  destruct (ReadSentence_fuel front _ (frame ++ rest) Hfront) as [fuel ->].
  rewrite (ReadSentence_loop_words sd front _ Hfront
             NewSentence (sentence_of verb attrs)).
  - apply ReadSentence_loop_end. exact Hend.
  - apply words_nonempty. exact Hv.
  - apply sentenceWords_sentence; assumption.
Qed.

Lemma sentence_of_Word (verb : string) (attrs : list attrWord) :
  Word (sentence_of verb attrs) = verb.
Proof.
  unfold sentence_of.
  set (s0 := {| Word := verb; Tag := ""; List := []; Map := ∅ |}).
  change verb with (Word s0). generalize s0. clear s0.
  induction attrs as [| a attrs IH]; intros s0; cbn [fold_left].
  - reflexivity.
  - rewrite IH. apply addAttr_Word.
Qed.

Lemma ReadSentence_invalid sd rest (frames : list (list Z))
    (verb : string) (attrs : list attrWord) (bad : string) :
  verb <> "" -> Forall attr_ok attrs -> bad <> "" ->
  String.prefix "=" bad = false -> String.prefix ".tag=" bad = false ->
  Forall2 reads_as frames (verb :: map render attrs ++ [bad]) ->
  ReadSentence sd (mkReader (concat frames ++ rest))
  = (inl (ErrInvalidWord (bytes_of_string bad)), mkReader rest).
Proof.
  intros Hv Hok Hbad He Ht Hfr.
  change (verb :: map render attrs ++ [bad])
    with ((verb :: map render attrs) ++ [bad]) in Hfr.
  apply frames_split in Hfr.
  destruct Hfr as (front & frame & -> & Hfront & Hlast).
  rewrite concat_snoc.
  unfold ReadSentence. cbn [bufferedReader].
  destruct (ReadSentence_fuel front _ (frame ++ rest) Hfront) as [fuel ->].
  rewrite (ReadSentence_loop_words sd front _ Hfront
             NewSentence (sentence_of verb attrs)).
  - apply (ReadSentence_loop_invalid sd _ fuel rest frame bad);
      [exact Hlast | exact Hbad |].
    apply sentenceWord_invalid; [| assumption ..].
    rewrite sentence_of_Word. exact Hv.
  - apply words_nonempty. exact Hv.
  - apply sentenceWords_sentence; assumption.
Qed.

Ltac solve_noEq :=
  unfold noEq; cbn [list_ascii_of_string In];
  let H := fresh in
  intros H; repeat (destruct H as [H | H]; [discriminate H |]); exact H.

Ltac solve_attrs_ok :=
  repeat (constructor; [cbn [attr_ok]; first [exact I | solve_noEq] |]);
  constructor.

Ltac solve_short :=
  repeat (constructor; [simpl; lia |]); constructor.

(** C2. The stream of the four words [!re], [.tag=r1], [=name=value] and
    the empty word is read, without an error, as the sentence with verb
    [!re], tag [r1] and the single pair [(name, value)].  In general, for
    a non-empty first word followed by words of the shapes [.tag=<tag>],
    [=<key>=<value>] and [=<key>] and then the empty word, however the
    words are framed, [ReadSentence] returns the sentence whose verb is
    the first word, whose tag is the suffix of the last [.tag=] word and
    whose pairs are, in order, the keys and values cut at the first [=]
    after the leading one, with an empty value where there is none. *)
Theorem ReadSentence_parses (sd : bool) (rest : list Z) :
  ReadSentence sd
    (mkReader (wire ["!re"; ".tag=r1"; "=name=value"; ""] ++ rest))
  = (inr {| Word := "!re"; Tag := "r1";
            List := [{| Key := "name"; Value := "value" |}];
            Map := <["name" := "value"]> ∅ |},
     mkReader rest)
  /\ forall (frames : list (list Z)) (verb : string)
        (attrs : list attrWord),
       verb <> "" -> Forall attr_ok attrs ->
       Forall2 reads_as frames (verb :: map render attrs ++ [""]) ->
       ReadSentence sd (mkReader (concat frames ++ rest))
       = (inr (sentence_of verb attrs), mkReader rest)
       /\ Word (sentence_of verb attrs) = verb.
Proof.
  split.
  - apply (ReadSentence_sentence sd rest
             (map encodeWord ["!re"; ".tag=r1"; "=name=value"; ""]) "!re"
             [TagWord "r1"; PairWord "name" "value"]).
    + discriminate.
    + solve_attrs_ok.
    + apply (wire_reads_as ["!re"; ".tag=r1"; "=name=value"; ""]).
      solve_short.
  - intros frames verb attrs Hv Hok Hfr. split.
    + apply ReadSentence_sentence; assumption.
    + apply sentence_of_Word.
Qed.

Lemma ReadSentence_parses_witness :
  ReadSentence false
    (mkReader (wire ("!done" :: map render
                       [PairWord "ret" "0a=1b"; KeyWord "x"; TagWord "r7";
                        PairWord "ret" ""]
                     ++ [""]) ++ [0x21]))
  = (inr {| Word := "!done"; Tag := "r7";
            List := [{| Key := "ret"; Value := "0a=1b" |};
                     {| Key := "x"; Value := "" |};
                     {| Key := "ret"; Value := "" |}];
            Map := <["ret" := ""]> (<["x" := ""]> (<["ret" := "0a=1b"]> ∅)) |},
     mkReader [0x21]).
Proof.
  refine (proj1 (proj2 (ReadSentence_parses false [0x21])
            (map encodeWord
               ("!done" :: map render
                  [PairWord "ret" "0a=1b"; KeyWord "x"; TagWord "r7";
                   PairWord "ret" ""] ++ [""]))
            "!done"
            [PairWord "ret" "0a=1b"; KeyWord "x"; TagWord "r7";
             PairWord "ret" ""] _ _ _)).
  - discriminate.
  - solve_attrs_ok.
  - apply wire_reads_as. solve_short.
Defined.

(** C7. A non-empty word that is not the first word of its sentence and
    starts neither with [=] nor with [.tag=] makes [ReadSentence] return
    the error "invalid RouterOS sentence word" for that word: the word is
    not skipped, no sentence is returned and nothing after the word is
    read. *)
Theorem ReadSentence_rejects_malformed_word (sd : bool) (rest : list Z)
    (frames : list (list Z)) (verb : string) (attrs : list attrWord)
    (bad : string) :
  verb <> "" -> Forall attr_ok attrs -> bad <> "" ->
  String.prefix "=" bad = false -> String.prefix ".tag=" bad = false ->
  Forall2 reads_as frames (verb :: map render attrs ++ [bad]) ->
  ReadSentence sd (mkReader (concat frames ++ rest))
  = (inl (ErrInvalidWord (bytes_of_string bad)), mkReader rest).
Proof. apply ReadSentence_invalid. Qed.

Lemma ReadSentence_rejects_malformed_word_witness :
  ReadSentence true
    (mkReader (wire ["!re"; "=name=value"; ".tag=r1"; "uptime"; "=x=y"; ""]))
  = (inl (ErrInvalidWord (bytes_of_string "uptime")),
     mkReader (wire ["=x=y"; ""])).
Proof.
  refine (ReadSentence_rejects_malformed_word true (wire ["=x=y"; ""])
            (map encodeWord ["!re"; "=name=value"; ".tag=r1"; "uptime"])
            "!re" [PairWord "name" "value"; TagWord "r1"] "uptime"
            _ _ _ _ _ _).
  - discriminate.
  - solve_attrs_ok.
  - discriminate.
  - reflexivity.
  - reflexivity.
  - apply (wire_reads_as ["!re"; "=name=value"; ".tag=r1"; "uptime"]).
    solve_short.
Defined.

Lemma fold_addAttr_fields (attrs : list attrWord) :
  forall s1 s2 : Sentence,
    Tag s1 = Tag s2 -> List s1 = List s2 -> Map s1 = Map s2 ->
    Tag (fold_left addAttr attrs s1) = Tag (fold_left addAttr attrs s2)
    /\ List (fold_left addAttr attrs s1) = List (fold_left addAttr attrs s2)
    /\ Map (fold_left addAttr attrs s1) = Map (fold_left addAttr attrs s2).
Proof.
  induction attrs as [| a attrs IH]; intros s1 s2 Ht Hl Hm.
  - cbn [fold_left]. auto.
  - cbn [fold_left]. apply IH;
      destruct a as [t | k v | k]; cbn [addAttr Tag List Map]; congruence.
Qed.

(** C10. The first non-empty word of a sentence is stored as the verb
    whatever it starts with: with no verb set, the loop body stores the
    word and looks at neither prefix.  A sentence whose first word is
    [.tag=<t>] or [=<s>] has that word as its verb, and its tag and pairs
    come from the later words alone; the sentence of the single word
    [.tag=x] has verb [.tag=x] and an empty tag. *)
Theorem ReadSentence_first_word_is_verb (sd : bool) (rest : list Z) :
  (forall (sen : Sentence) (word : string),
     Word sen = "" ->
     sentenceWord sen (bytes_of_string word)
     = inr {| Word := word; Tag := Tag sen; List := List sen;
              Map := Map sen |})
  /\ (forall (frames : list (list Z)) (first : string)
         (attrs : list attrWord),
        first <> "" -> Forall attr_ok attrs ->
        Forall2 reads_as frames (first :: map render attrs ++ [""]) ->
        exists sen,
          ReadSentence sd (mkReader (concat frames ++ rest))
          = (inr sen, mkReader rest)
          /\ Word sen = first
          /\ Tag sen = Tag (fold_left addAttr attrs NewSentence)
          /\ List sen = List (fold_left addAttr attrs NewSentence)
          /\ Map sen = Map (fold_left addAttr attrs NewSentence))
  /\ ReadSentence sd (mkReader (wire [".tag=x"; ""] ++ rest))
     = (inr {| Word := ".tag=x"; Tag := ""; List := []; Map := ∅ |},
        mkReader rest).
Proof.
  split; [| split].
  - intros sen word H. apply sentenceWord_verb. exact H.
  - intros frames first attrs Hv Hok Hfr.
    exists (sentence_of first attrs). split; [| split].
    + apply ReadSentence_sentence; assumption.
    + apply sentence_of_Word.
    + apply fold_addAttr_fields; reflexivity.
  - apply (ReadSentence_sentence sd rest (map encodeWord [".tag=x"; ""])
             ".tag=x" []).
    + discriminate.
    + constructor.
    + apply (wire_reads_as [".tag=x"; ""]). solve_short.
Qed.

Lemma ReadSentence_first_word_is_verb_witness :
  exists sen,
    ReadSentence false
      (mkReader (wire ["=a=b"; ".tag=r2"; "=c"; ""] ++ [7]))
    = (inr sen, mkReader [7])
    /\ Word sen = "=a=b" /\ Tag sen = "r2"
    /\ List sen = [{| Key := "c"; Value := "" |}].
Proof.
  destruct (proj1 (proj2 (ReadSentence_first_word_is_verb false [7]))
              (map encodeWord ["=a=b"; ".tag=r2"; "=c"; ""])
              "=a=b" [TagWord "r2"; KeyWord "c"])
    as (sen & Hr & Hw & Ht & Hl & _).
  - discriminate.
  - solve_attrs_ok.
  - apply (wire_reads_as ["=a=b"; ".tag=r2"; "=c"; ""]). solve_short.
  - exists sen. repeat split; assumption.
Defined.

(** ** The sentence writer *)

Lemma WriteWord_ops (words : list string) (w : writer) :
  fold_left (fun w word => WriteWord word w) words w
  = fold_left runOp (flat_map word_ops words) w.
Proof.
  revert w. induction words as [| word words IH]; intros w.
  - reflexivity.
  - cbn [fold_left flat_map word_ops app]. apply IH.
Qed.

Lemma writeSentence_ops (words : list string) (w : writer) :
  writeSentence words w
  = let w' := fold_left runOp (sentence_ops words) (BeginSentence w) in
    (err w', {| bufferedWriter := bufferedWriter w'; err := err w';
                locked := false |}).
Proof.
  unfold writeSentence, EndSentence, sentence_ops.
  rewrite flat_map_app, !fold_left_app, WriteWord_ops.
  reflexivity.
Qed.

Lemma runOp_skipped (ops : list writer_op) (w : writer) (e : error) :
  err w = Some e -> fold_left runOp ops w = w.
Proof.
  intros He. induction ops as [| op ops IH]; [reflexivity |].
  cbn [fold_left]. destruct op; cbn [runOp]; unfold write, flush;
    rewrite ?He; exact IH.
Qed.

Lemma runOp_one (op : writer_op) (w : writer) :
  err w = None ->
  runOp w op
  = let '(e, bw) :=
      bufio_call (call_of op)
        {| results := results (bufferedWriter w);
           calls := calls (bufferedWriter w) ++ [CallSetWriteDeadline] |} in
    {| bufferedWriter := bw; err := e; locked := locked w |}.
Proof.
  intros He.
  destruct op; cbn [runOp call_of]; unfold write, flush; rewrite He;
    cbn [setDeadline bufferedWriter err locked];
    match goal with
    | |- context [bufio_call ?c ?b] => destruct (bufio_call c b) as [[e |] bw]
    end; rewrite ?He; reflexivity.
Qed.

Lemma runOp_failFast (ops : list writer_op) :
  forall w : writer,
    err w = None ->
    fold_left runOp ops w
    = let '(e, bw) := failFast ops (bufferedWriter w) in
      {| bufferedWriter := bw; err := e; locked := locked w |}.
Proof.
  induction ops as [| op ops IH]; intros w He.
  - destruct w as [bw e l]. simpl in *. subst. reflexivity.
  - cbn [fold_left failFast]. rewrite (runOp_one op w He).
    destruct (bufio_call (call_of op) _) as [[e |] bw].
    + apply (runOp_skipped ops _ e). reflexivity.
    + rewrite IH by reflexivity. reflexivity.
Qed.

Lemma failFast_first_error (ops : list writer_op) :
  forall bw : bufio_Writer,
    exists k : nat,
      (forall i, (i < k)%nat -> nth i (results bw) None = None)
      /\ match fst (failFast ops bw) with
         | None =>
             k = length ops
             /\ calls (snd (failFast ops bw)) = calls bw ++ armed_calls ops
         | Some e =>
             (k < length ops)%nat
             /\ nth k (results bw) None = Some e
             /\ calls (snd (failFast ops bw))
                = calls bw ++ armed_calls (take (S k) ops)
         end.
Proof.
  induction ops as [| op ops IH]; intros bw.
  - exists O. split; [intros i Hi; lia |].
    cbn. rewrite app_nil_r. auto.
  - cbn [failFast]. unfold bufio_call. cbn [results calls].
    destruct (results bw) as [| [x |] rs] eqn:Hr.
    + match goal with
      | |- context [failFast ops ?b] =>
          destruct (IH b) as (k & Hnone & Hk); revert Hk;
          destruct (failFast ops b) as [[e |] bw'] eqn:Hf
      end; cbn [fst snd results calls]; intros Hk.
      * destruct Hk as (_ & Hx & _). destruct k; discriminate Hx.
      * destruct Hk as (-> & Hc). exists (S (length ops)).
        split; [intros [| i] _; reflexivity |].
        split; [reflexivity |].
        rewrite Hc. cbn [armed_calls flat_map app].
        rewrite <- !app_assoc. reflexivity.
    + exists O. cbn [fst snd calls length].
      split; [intros i Hi; lia |].
      split; [lia |]. split; [reflexivity |].
      cbn [take armed_calls flat_map app].
      rewrite <- app_assoc. reflexivity.
    + match goal with
      | |- context [failFast ops ?b] =>
          destruct (IH b) as (k & Hnone & Hk); revert Hk;
          destruct (failFast ops b) as [[e |] bw'] eqn:Hf
      end; cbn [fst snd results calls] in *; intros Hk;
        exists (S k);
        (split; [intros [| i] Hi; [reflexivity | apply Hnone; lia] |]).
      * destruct Hk as (Hlt & Hx & Hc). cbn [length nth].
        split; [lia |]. split; [exact Hx |].
        rewrite Hc. cbn [take armed_calls flat_map app].
        rewrite <- !app_assoc. reflexivity.
      * destruct Hk as (-> & Hc). cbn [length].
        split; [reflexivity |].
        rewrite Hc. cbn [armed_calls flat_map app].
        rewrite <- !app_assoc. reflexivity.
Qed.

(** C3 (amended).  The writer's error is sticky for the life of the
    writer, not of the sentence.  For a sentence begun with no error
    set: the writes and the flush are made in order, each after arming
    the deadline, up to and including the first one that fails; every
    later one is skipped, and [EndSentence] returns that first failure,
    or no error when none failed.  For a sentence begun with an error
    already set, no call is made at all and [EndSentence] returns that
    earlier error. *)
Theorem writer_sentence_sticky_error (w : writer) (words : list string) :
  (err w = None ->
   exists k : nat,
     (forall i, (i < k)%nat -> nth i (results (bufferedWriter w)) None = None)
     /\ err (snd (writeSentence words w)) = fst (writeSentence words w)
     /\ match fst (writeSentence words w) with
        | None =>
            k = length (sentence_ops words)
            /\ calls (bufferedWriter (snd (writeSentence words w)))
               = calls (bufferedWriter w) ++ armed_calls (sentence_ops words)
        | Some e =>
            (k < length (sentence_ops words))%nat
            /\ nth k (results (bufferedWriter w)) None = Some e
            /\ calls (bufferedWriter (snd (writeSentence words w)))
               = calls (bufferedWriter w)
                 ++ armed_calls (take (S k) (sentence_ops words))
        end)
  /\ (forall e0 : error,
        err w = Some e0 ->
        writeSentence words w
        = (Some e0, {| bufferedWriter := bufferedWriter w; err := Some e0;
                       locked := false |})).
Proof.
  split.
  - intros He. rewrite writeSentence_ops.
    rewrite (runOp_failFast _ (BeginSentence w)) by exact He.
    cbn [BeginSentence bufferedWriter locked].
    destruct (failFast_first_error (sentence_ops words) (bufferedWriter w))
      as (k & Hnone & Hk).
    exists k. split; [exact Hnone |].
    destruct (failFast (sentence_ops words) (bufferedWriter w)) as [e bw].
    cbn [fst snd err bufferedWriter] in *. split; [reflexivity | exact Hk].
  - intros e0 He. rewrite writeSentence_ops.
    rewrite (runOp_skipped _ (BeginSentence w) e0) by exact He.
    cbn [BeginSentence bufferedWriter err]. rewrite He. reflexivity.
Qed.

Lemma writer_sentence_sticky_error_witness :
  let w := {| bufferedWriter :=
                {| results := [None; None; Some (ErrTransport 7); None];
                   calls := [] |};
              err := None; locked := false |} in
  exists k : nat,
    (k < length (sentence_ops ["/login"; "=name=admin"]))%nat
    /\ nth k (results (bufferedWriter w)) None = Some (ErrTransport 7)
    /\ fst (writeSentence ["/login"; "=name=admin"] w)
       = Some (ErrTransport 7)
    /\ calls (bufferedWriter (snd (writeSentence ["/login"; "=name=admin"] w)))
       = armed_calls (take (S k) (sentence_ops ["/login"; "=name=admin"])).
Proof.
  intros w.
  destruct (proj1 (writer_sentence_sticky_error w ["/login"; "=name=admin"])
              eq_refl) as (k & _ & _ & Hk).
  change (fst (writeSentence ["/login"; "=name=admin"] w))
    with (Some (ErrTransport 7)) in Hk.
  destruct Hk as (Hlt & Hx & Hc).
  exists k. repeat split; assumption.
Defined.

(** The claim C3 as it is worded fails: after a sentence whose first write
    failed, the next sentence makes no call on the connection, so none of
    its writes or flushes fails, and its [EndSentence] still returns the
    error of the earlier sentence. *)
Lemma writer_error_outlives_sentence :
  let w0 := {| bufferedWriter :=
                 {| results := [Some (ErrTransport 1)]; calls := [] |};
               err := None; locked := false |} in
  let w1 := snd (writeSentence ["/first"] w0) in
  let w2 := snd (writeSentence ["/second"] w1) in
  results (bufferedWriter w1) = []
  /\ calls (bufferedWriter w2) = calls (bufferedWriter w1)
  /\ fst (writeSentence ["/second"] w1) = Some (ErrTransport 1)
  /\ ~ (forall (w : writer) (words : list string),
          calls (bufferedWriter (snd (writeSentence words w)))
          = calls (bufferedWriter w) ->
          fst (writeSentence words w) = None).
Proof.
  intros w0 w1 w2. split; [reflexivity |]. split; [reflexivity |].
  split; [reflexivity |].
  intros H. specialize (H w1 ["/second"] eq_refl). discriminate H.
Qed.

(** ** Command words *)

Lemma inCutset_space (ch : ascii) : inCutset " " ch = true <-> ch = " "%char.
Proof.
  unfold inCutset. cbn [list_ascii_of_string existsb].
  rewrite orb_false_r. apply Ascii.eqb_eq.
Qed.

Lemma trimLeft_nil (l : list ascii) (cutset : string) :
  trimLeft l cutset = [] <-> Forall (fun ch => inCutset cutset ch = true) l.
Proof.
  induction l as [| ch l IH]; cbn [trimLeft].
  - split; [constructor | reflexivity].
  - destruct (inCutset cutset ch) eqn:Hc.
    + rewrite IH. split.
      * intros H. constructor; assumption.
      * intros H. inversion H; assumption.
    + split; [discriminate |].
      intros H. inversion H; congruence.
Qed.

Lemma trimLeft_Forall (l : list ascii) (cutset : string) :
  Forall (fun ch => inCutset cutset ch = true) (trimLeft l cutset)
  <-> Forall (fun ch => inCutset cutset ch = true) l.
Proof.
  induction l as [| ch l IH]; cbn [trimLeft]; [reflexivity |].
  destruct (inCutset cutset ch) eqn:Hc; [| reflexivity].
  rewrite IH. split.
  - intros H. constructor; assumption.
  - intros H. inversion H; assumption.
Qed.

Lemma string_length_nil (l : list ascii) :
  String.length (string_of_list_ascii l) = 0%nat <-> l = [].
Proof.
  destruct l; cbn; split; intros H; try reflexivity; discriminate.
Qed.

Lemma emptyWord_blank (word : string) :
  routeros.emptyWord word = true <-> blank word.
Proof.
  unfold routeros.emptyWord, Trim, blank.
  rewrite Nat.eqb_eq, string_length_nil.
  rewrite <- (rev_involutive []) at 1. cbn [rev app].
  split.
  - intros H.
    assert (H' : trimLeft (rev (trimLeft (list_ascii_of_string word) " ")) " "
                 = []).
    { rewrite <- (rev_involutive (trimLeft (rev _) " ")), H. reflexivity. }
    apply (proj1 (trimLeft_nil _ _)) in H'. apply Forall_rev in H'.
    rewrite rev_involutive in H'.
    apply (proj1 (trimLeft_Forall _ _)) in H'.
    eapply Forall_impl; [exact H' |]. intros ch. apply inCutset_space.
  - intros H.
    assert (H' : Forall (fun ch => inCutset " " ch = true)
                   (list_ascii_of_string word)).
    { eapply Forall_impl; [exact H |]. intros ch. apply inCutset_space. }
    apply (proj2 (trimLeft_Forall _ " ")) in H'. apply Forall_rev in H'.
    apply (proj2 (trimLeft_nil _ _)) in H'. rewrite H'. reflexivity.
Qed.

Lemma existsb_emptyWord (sentence : list string) :
  Exists blank sentence -> existsb routeros.emptyWord sentence = true.
Proof.
  induction 1 as [word sentence Hb | word sentence _ IH]; cbn [existsb].
  - apply (proj2 (emptyWord_blank word)) in Hb. rewrite Hb. reflexivity.
  - rewrite IH. apply orb_true_r.
Qed.

(** C4 (amended).  A command sentence with a word that is empty or is
    made of space characters (U+0020) only makes [RunArgs], and so [Run],
    return the empty-word error with the client as it was: the writer is
    not locked and nothing is written.  [Run("/ip/address/add", "")] and
    [Run("/ip/address/add", "   ")] fail in this way. *)
Theorem RunArgs_rejects_blank_word
    (readReply : proto.reader ->
                 (option routeros.Reply * option error) * proto.reader)
    (reC : list (option bool)) (stored : routeros.Reply * option error)
    (c : routeros.Client) :
  (forall sentence : list string,
     Exists blank sentence ->
     routeros.RunArgs readReply reC stored sentence c
     = (routeros.Returns (None, Some errEmptyWord), c))
  /\ routeros.Run readReply reC stored ["/ip/address/add"; ""] c
     = (routeros.Returns (None, Some errEmptyWord), c)
  /\ routeros.Run readReply reC stored ["/ip/address/add"; "   "] c
     = (routeros.Returns (None, Some errEmptyWord), c).
Proof.
  split; [| split].
  - intros sentence H. unfold routeros.RunArgs.
    rewrite (existsb_emptyWord sentence H). reflexivity.
  - reflexivity.
  - reflexivity.
Qed.

Lemma RunArgs_rejects_blank_word_witness :
  Exists blank ["/interface/print"; "  "; "=detail="]
  /\ routeros.RunArgs
       (fun r => ((Some {| routeros.Re := []; routeros.Done := None |}, None), r))
       [] ({| routeros.Re := []; routeros.Done := None |}, None)
       ["/interface/print"; "  "; "=detail="] (freshClient false 0)
     = (routeros.Returns (None, Some errEmptyWord), freshClient false 0).
Proof.
  assert (H : Exists blank ["/interface/print"; "  "; "=detail="]).
  { apply Exists_cons_tl, Exists_cons_hd. repeat constructor. }
  split; [exact H |].
  apply (proj1 (RunArgs_rejects_blank_word _ _ _ _)). exact H.
Defined.

(** The claim C4 as it is worded fails for whitespace other than the
    space character: a word that is a single tab (U+0009) passes the
    check, and the sentence is written to the connection. *)
Lemma RunArgs_accepts_tab_word :
  let readReply := fun r : proto.reader =>
    ((Some {| routeros.Re := []; routeros.Done := Some NewSentence |},
      @None error), r) in
  let stored := ({| routeros.Re := []; routeros.Done := None |}, @None error) in
  let tab := String "009"%char "" in
  let res :=
    routeros.Run readReply [] stored ["/ip/address/add"; tab]
      (freshClient false 0) in
  routeros.emptyWord tab = false
  /\ fst res
     = routeros.Returns
         (Some {| routeros.Re := []; routeros.Done := Some NewSentence |}, None)
  /\ calls (bufferedWriter (routeros.w (snd res)))
     = armed_calls (sentence_ops ["/ip/address/add"; tab])
  /\ res <> (routeros.Returns (None, Some errEmptyWord), freshClient false 0).
Proof.
  intros readReply stored tab res.
  split; [reflexivity |]. split; [reflexivity |]. split; [reflexivity |].
  intros H. apply (f_equal fst) in H. discriminate H.
Qed.

(** ** Login *)

(** The MD5 model on the test suite of RFC 1321. *)
Example md5_empty :
  hex.EncodeToString (md5.Sum []) = "d41d8cd98f00b204e9800998ecf8427e".
Proof. vm_compute. reflexivity. Qed.

Example md5_abc :
  hex.EncodeToString (md5.Sum (bytes_of_string "abc"))
  = "900150983cd24fb0d6963f7d28e17f72".
Proof. vm_compute. reflexivity. Qed.

Example md5_two_blocks :
  hex.EncodeToString
    (md5.Sum (bytes_of_string
       "12345678901234567890123456789012345678901234567890123456789012345678901234567890"))
  = "57edf4a22be3c955ac49da2e2107b67a".
Proof. vm_compute. reflexivity. Qed.

Example hex_DecodeString_mixed_case :
  hex.DecodeString "0a1B2c" = Some [0x0a; 0x1b; 0x2c]
  /\ hex.DecodeString "0a1" = None /\ hex.DecodeString "0g" = None.
Proof. repeat split. Qed.

(** C5 (amended).  When the first [/login] returns without an error and
    its reply has a terminal sentence with a [ret] attribute that is a
    hex string, [Login] passes exactly one more sentence to [Run]:
    [/login], the name, and a [response] attribute that is [00] followed
    by the lower-case hex digest [MD5(0x00, password, challenge)]; its
    result is the error of that second command.  When the first [/login]
    returns without an error and the terminal sentence is there and has
    no [ret] attribute, [Login] returns no error and passes nothing more
    to [Run]. *)
Theorem Login_challenge_response {St : Type}
    (run : list string -> St ->
           routeros.outcome (option routeros.Reply * option error) * St)
    (c c1 : St) (username password : string)
    (reply : routeros.Reply) (done : Sentence) :
  let first :=
    ["/login"; "=name=" +:+ username; "=password=" +:+ password] in
  run first c = (routeros.Returns (Some reply, None), c1) ->
  routeros.Done reply = Some done ->
  (forall (ret : string) (cha : list Z),
     Map done !! "ret" = Some ret ->
     hex.DecodeString ret = Some cha ->
     let second :=
       ["/login"; "=name=" +:+ username;
        "=response=" +:+ "00"
          +:+ hex.EncodeToString
                (md5.Sum ([0] ++ bytes_of_string password ++ cha))] in
     snd (routeros.exec run (routeros.Login username password) c)
     = [first; second]
     /\ forall (r2 : option routeros.Reply) (e2 : option error) (c2 : St),
          run second c1 = (routeros.Returns (r2, e2), c2) ->
          routeros.exec run (routeros.Login username password) c
          = (routeros.Returned e2, c2, [first; second]))
  /\ (Map done !! "ret" = None ->
      routeros.exec run (routeros.Login username password) c
      = (routeros.Returned None, c1, [first])).
Proof.
  intros first Hrun Hdone. split.
  - intros ret cha Hret Hcha second.
    unfold routeros.Login. cbn [routeros.exec].
    fold first. rewrite Hrun, Hdone, Hret, Hcha.
    unfold routeros.challengeResponse. cbn [routeros.exec]. fold second.
    destruct (run second c1) as [[[r2 e2] |] c2] eqn:H2.
    + split.
      * destruct e2; reflexivity.
      * intros r2' e2' c2' E. inversion E; subst.
        destruct e2'; reflexivity.
    + split; [reflexivity | intros ? ? ? E; discriminate E].
  - intros Hret. unfold routeros.Login. cbn [routeros.exec].
    fold first. rewrite Hrun, Hdone, Hret. reflexivity.
Qed.

Lemma Login_challenge_response_witness :
  let run := routeros.Run (challengeReply "0a1B2c") []
               ({| routeros.Re := []; routeros.Done := None |}, None) in
  snd (routeros.exec run (routeros.Login "admin" "secret")
         (freshClient false 60000000000))
  = [["/login"; "=name=admin"; "=password=secret"];
     ["/login"; "=name=admin";
      "=response=00cb72d31df272cb5feff5a029e53e8f8f"]].
Proof.
  intros run.
  refine (proj1 (proj1 (Login_challenge_response run
            (freshClient false 60000000000)
            (snd (run ["/login"; "=name=admin"; "=password=secret"]
                    (freshClient false 60000000000)))
            "admin" "secret"
            {| routeros.Re := [];
               routeros.Done := Some (sentence_of "!done" [PairWord "ret" "0a1B2c"]) |}
            (sentence_of "!done" [PairWord "ret" "0a1B2c"])
            _ _) "0a1B2c" [0x0a; 0x1b; 0x2c] _ _)).
  - vm_compute. reflexivity.
  - reflexivity.
  - vm_compute. reflexivity.
  - vm_compute. reflexivity.
Defined.

(** The claim C5 as it is worded fails when the first [/login] returns an
    error together with its reply, as asynchronous [RunArgs] does after a
    [!trap]: the error is tested before the reply is looked at.  With a
    terminal sentence that is there and has no [ret], [Login] returns the
    error and not success; with a terminal sentence that has a hex [ret],
    [Login] sends no second command. *)
Lemma Login_returns_error_of_first_command :
  let c := freshClient true 60000000000 in
  let first := ["/login"; "=name=admin"; "=password=wrong"] in
  let trap := ErrDevice "cannot log in" in
  let run1 :=
    routeros.Run (challengeReply "") [Some false]
      ({| routeros.Re := [];
          routeros.Done := Some (sentence_of "!done" []) |}, Some trap) in
  let run2 :=
    routeros.Run (challengeReply "") [Some false]
      ({| routeros.Re := [];
          routeros.Done := Some (sentence_of "!done" [PairWord "ret" "0a1b2c"]) |},
       Some trap) in
  (exists reply done,
     fst (run1 first c) = routeros.Returns (Some reply, Some trap)
     /\ routeros.Done reply = Some done /\ Map done !! "ret" = None)
  /\ fst (fst (routeros.exec run1 (routeros.Login "admin" "wrong") c))
     = routeros.Returned (Some trap)
  /\ fst (fst (routeros.exec run1 (routeros.Login "admin" "wrong") c))
     <> routeros.Returned None
  /\ (exists reply done,
        fst (run2 first c) = routeros.Returns (Some reply, Some trap)
        /\ routeros.Done reply = Some done
        /\ Map done !! "ret" = Some "0a1b2c"
        /\ hex.DecodeString "0a1b2c" = Some [0x0a; 0x1b; 0x2c])
  /\ snd (routeros.exec run2 (routeros.Login "admin" "wrong") c) = [first].
Proof.
  intros c first trap run1 run2.
  split; [eexists _, _; repeat split; vm_compute; reflexivity |].
  split; [vm_compute; reflexivity |].
  split; [vm_compute; discriminate |].
  split; [eexists _, _; repeat split; vm_compute; reflexivity |].
  vm_compute. reflexivity.
Qed.

(** ** Tags of asynchronous commands *)









(** The bound is that of the counter's type: at [lastTag = 2^64 - 1],
    a value that a client starting at 0 has only after [2^64 - 1]
    allocations, the add wraps to 0. *)
Lemma nextTag_wraps_around :
  let c :=
    {| routeros.r := mkReader [];
       routeros.w :=
         {| bufferedWriter := {| results := []; calls := [] |};
            err := None; locked := true |};
       routeros.closing := false; routeros.async := true;
       routeros.lastTag := 2 ^ 64 - 1;
       routeros.tags := Some ∅; routeros.timeout := 0 |} in
  fst (routeros.nextTag c) = 0
  /\ ~ routeros.lastTag c < fst (routeros.nextTag c)
  /\ ~ routeros.lastTag c
       < routeros.lastTag (snd (routeros.endCommandAsync c))
  /\ asyncTags 1 c = ["r0"].
Proof.
  intros c. split; [reflexivity |].
  split; [vm_compute; discriminate |].
  split; [vm_compute; discriminate |].
  vm_compute. reflexivity.
Qed.

(** ** Waiting for an asynchronous reply *)

Lemma bufio_call_foreign (op : io_call) (bw : bufio_Writer) :
  Forall foreign (results bw) ->
  foreign (fst (bufio_call op bw))
  /\ Forall foreign (results (snd (bufio_call op bw))).
Proof.
  intros H. unfold bufio_call.
  destruct (results bw) as [| o rs] eqn:Hr; cbn [fst snd results].
  - split; [discriminate | constructor].
  - inversion H; subst. split; assumption.
Qed.

Lemma runOp_foreign (op : writer_op) (w : writer) :
  writer_foreign w -> writer_foreign (runOp w op).
Proof.
  intros [He Hr]. destruct (err w) as [e |] eqn:Hw.
  - rewrite (runOp_skipped [op] w e Hw : runOp w op = w).
    split; [rewrite Hw; exact He | exact Hr].
  - rewrite (runOp_one op w Hw).
    match goal with
    | |- context [bufio_call ?c ?b] =>
        pose proof (bufio_call_foreign c b Hr) as [H1 H2];
        destruct (bufio_call c b) as [e bw]
    end.
    split; assumption.
Qed.

Lemma WriteWord_foreign (word : string) (w : writer) :
  writer_foreign w -> writer_foreign (WriteWord word w).
Proof.
  intros H. unfold WriteWord.
  apply (runOp_foreign (OpWrite _)), (runOp_foreign (OpWrite _)). exact H.
Qed.

Lemma EndSentence_foreign (w : writer) :
  writer_foreign w ->
  foreign (fst (EndSentence w)) /\ writer_foreign (snd (EndSentence w)).
Proof.
  intros H. unfold EndSentence. cbn [fst snd].
  assert (H' : writer_foreign (flush (WriteWord "" w))).
  { apply (runOp_foreign OpFlush), WriteWord_foreign. exact H. }
  destruct H' as [He Hr]. repeat split; assumption.
Qed.

Lemma writeWords_invariant (P : routeros.Client -> Prop) (sentence : list string) :
  (forall c word,
     P c -> P (routeros.set_w (WriteWord word (routeros.w c)) c)) ->
  forall c,
    P c ->
    P (fold_left
         (fun c word => routeros.set_w (WriteWord word (routeros.w c)) c)
         sentence c).
Proof.
  intros Hstep. induction sentence as [| word sentence IH]; intros c Hc.
  - exact Hc.
  - cbn [fold_left]. apply IH, Hstep, Hc.
Qed.

Lemma readAllSentences_no_timer (d : Z) (reC : list (option bool)) :
  d <= 0 ->
  routeros.readAllSentences d reC = routeros.Returns None
  \/ routeros.readAllSentences d reC = routeros.Blocks.
Proof.
  intros Hd.
  assert (Ht : routeros.newTimeoutTimer d = (None, None)).
  { unfold routeros.newTimeoutTimer.
    destruct (Z.ltb_spec 0 d); [lia | reflexivity]. }
  induction reC as [| [[|] |] reC IH]; cbn [routeros.readAllSentences];
    rewrite Ht; cbn; auto.
Qed.

Lemma endCommandAsync_foreign (c : routeros.Client) :
  writer_foreign (routeros.w c) ->
  routeros.timeout (snd (routeros.endCommandAsync c)) = routeros.timeout c
  /\ forall e, fst (routeros.endCommandAsync c) = inl e ->
               e <> errAsyncTimeout.
Proof.
  intros Hw. unfold routeros.endCommandAsync, routeros.nextTag.
  cbn [routeros.set_w routeros.w routeros.tags routeros.timeout].
  match goal with
  | |- context [EndSentence ?x] =>
      assert (Hx : writer_foreign x) by (apply WriteWord_foreign; exact Hw);
      pose proof (EndSentence_foreign x Hx) as [He _];
      destruct (EndSentence x) as [[e |] w']
  end; cbn [fst snd routeros.timeout] in *.
  - split; [reflexivity |]. intros e' [= <-] ->. apply He. reflexivity.
  - destruct (routeros.tags c); cbn [fst snd routeros.timeout].
    + split; [reflexivity | discriminate].
    + split; [reflexivity |]. intros e' [= <-]. discriminate.
Qed.

(** C9. With a timeout that is zero or negative, [newTimeoutTimer] makes
    no timer and returns a nil channel, so the [select] of [RunArgs] can
    only take the completion channel: the wait ends when that channel is
    closed and lasts for ever when nothing arrives, and an asynchronous
    [RunArgs] does not return the async-timeout error.  With a positive
    timeout the wait does end with that error when nothing arrives. *)
Theorem RunArgs_async_timeout_needs_positive_timeout
    (readReply : proto.reader ->
                 (option routeros.Reply * option error) * proto.reader)
    (reC : list (option bool)) (stored : routeros.Reply * option error)
    (sentence : list string) (c : routeros.Client) :
  routeros.async c = true ->
  routeros.timeout c <= 0 ->
  writer_foreign (routeros.w c) ->
  foreign (snd stored) ->
  routeros.newTimeoutTimer (routeros.timeout c) = (None, None)
  /\ (forall evs : list (option bool),
        routeros.readAllSentences (routeros.timeout c) evs
        <> routeros.Returns (Some errAsyncTimeout))
  /\ routeros.readAllSentences (routeros.timeout c) [] = routeros.Blocks
  /\ (forall res c',
        routeros.RunArgs readReply reC stored sentence c
        = (routeros.Returns res, c') ->
        snd res <> Some errAsyncTimeout)
  /\ (forall d : Z,
        0 < d ->
        routeros.readAllSentences d []
        = routeros.Returns (Some errAsyncTimeout)).
Proof.
  intros Hasync Hd Hw Hst.
  assert (Ht : routeros.newTimeoutTimer (routeros.timeout c) = (None, None)).
  { unfold routeros.newTimeoutTimer.
    destruct (Z.ltb_spec 0 (routeros.timeout c)); [lia | reflexivity]. }
  split; [exact Ht |]. split.
  { intros evs.
    destruct (readAllSentences_no_timer _ evs Hd) as [-> | ->]; discriminate. }
  split.
  { cbn [routeros.readAllSentences]. rewrite Ht. reflexivity. }
  split.
  - intros res c'. unfold routeros.RunArgs.
    destruct (existsb routeros.emptyWord sentence).
    { intros [= <- _]. discriminate. }
    match goal with
    | |- context [fold_left ?f sentence ?c0] =>
        assert (Hinv : routeros.async (fold_left f sentence c0) = true
                       /\ routeros.timeout (fold_left f sentence c0)
                          = routeros.timeout c
                       /\ writer_foreign
                            (routeros.w (fold_left f sentence c0)));
        [| set (c1 := fold_left f sentence c0) in * ]
    end.
    { apply (writeWords_invariant
               (fun x => routeros.async x = true
                         /\ routeros.timeout x = routeros.timeout c
                         /\ writer_foreign (routeros.w x))).
      - intros x word (Ha & Hti & Hwf). cbn. repeat split; try assumption;
          apply WriteWord_foreign; exact Hwf.
      - cbn. repeat split; try assumption; apply Hw. }
    destruct Hinv as (Ha & Hti & Hwf). rewrite Ha. cbn [negb].
    pose proof (endCommandAsync_foreign c1 Hwf) as [Hti' He].
    destruct (routeros.endCommandAsync c1) as [[e | a] c2];
      cbn [fst snd] in *.
    + intros [= <- _]. cbn [snd]. intros [= E]. exact (He e eq_refl E).
    + rewrite Hti', Hti.
      destruct (readAllSentences_no_timer _ reC Hd) as [-> | ->].
      * intros [= <- _]. exact Hst.
      * discriminate.
  - intros d Hpos. cbn [routeros.readAllSentences].
    unfold routeros.newTimeoutTimer.
    destruct (Z.ltb_spec 0 d); [reflexivity | lia].
Qed.

Lemma RunArgs_async_timeout_needs_positive_timeout_witness :
  let run :=
    routeros.RunArgs (challengeReply "") [Some true; None]
      ({| routeros.Re := []; routeros.Done := None |}, None)
      ["/system/resource/print"] in
  fst (run (freshClient true 0)) = routeros.Blocks
  /\ fst (run (freshClient true 60000000000))
     = routeros.Returns (None, Some errAsyncTimeout)
  /\ forall res c',
       run (freshClient true 0) = (routeros.Returns res, c') ->
       snd res <> Some errAsyncTimeout.
Proof.
  intros run. split; [vm_compute; reflexivity |].
  split; [vm_compute; reflexivity |].
  refine (proj1 (proj2 (proj2 (proj2
            (RunArgs_async_timeout_needs_positive_timeout _ _ _ _
               (freshClient true 0) _ _ _ _))))).
  - reflexivity.
  - cbn. lia.
  - split; [discriminate | constructor].
  - discriminate.
Defined.

(** * Further properties of the framing *)

Lemma readNumber_short (k : nat) sd (s : list Z) :
  (length s < k)%nat ->
  readNumber k sd (mkReader s)
  = (inl (match s with [] => EOF | _ :: _ => ErrUnexpectedEOF end),
     mkReader []).
Proof.
  intros H. unfold readNumber, bind, readFull. cbn [bufferedReader].
  destruct (Nat.leb_spec k (length s)); [lia |].
  destruct s; reflexivity.
Qed.

Lemma readNumber_bound (k : nat) sd (r r' : reader) (x : Z) :
  (k <= 4)%nat ->
  Forall is_byte (bufferedReader r) ->
  readNumber k sd r = (inr x, r') ->
  0 <= x < 2 ^ (8 * Z.of_nat k)
  /\ exists p, length p = k /\ bufferedReader r = p ++ bufferedReader r'.
Proof.
  intros Hk Hb H. destruct r as [s]. cbn [bufferedReader] in *.
  assert (Hlen : (k <= length s)%nat).
  { destruct (Nat.le_gt_cases k (length s)) as [Hle | Hgt]; [exact Hle |].
    rewrite (readNumber_short k sd s Hgt) in H. discriminate H. }
  destruct k as [| [| [| [| [| k]]]]]; [| | | | | lia].
  - unfold readNumber, bind, readFull, ret in H. cbn in H.
    injection H as <- <-. split; [cbn; lia |]. exists []. split; reflexivity.
  - destruct s as [| b1 s]; [cbn in Hlen; lia |].
    rewrite readNumber_1 in H. injection H as <- <-.
    inversion Hb as [| ? ? H1 _]; subst. unfold is_byte in *.
    split; [cbn; lia |]. exists [b1]. split; reflexivity.
  - destruct s as [| b1 [| b2 s]]; try (cbn in Hlen; lia).
    inversion Hb as [| ? ? H1 Hb1]; subst.
    inversion Hb1 as [| ? ? H2 _]; subst.
    rewrite readNumber_2 in H by assumption. injection H as <- <-.
    unfold is_byte in *.
    split; [cbn; lia |]. exists [b1; b2]. split; reflexivity.
  - destruct s as [| b1 [| b2 [| b3 s]]]; try (cbn in Hlen; lia).
    inversion Hb as [| ? ? H1 Hb1]; subst.
    inversion Hb1 as [| ? ? H2 Hb2]; subst.
    inversion Hb2 as [| ? ? H3 _]; subst.
    rewrite readNumber_3 in H by assumption. injection H as <- <-.
    unfold is_byte in *.
    split; [cbn; lia |]. exists [b1; b2; b3]. split; reflexivity.
  - destruct s as [| b1 [| b2 [| b3 [| b4 s]]]]; try (cbn in Hlen; lia).
    inversion Hb as [| ? ? H1 Hb1]; subst.
    inversion Hb1 as [| ? ? H2 Hb2]; subst.
    inversion Hb2 as [| ? ? H3 Hb3]; subst.
    inversion Hb3 as [| ? ? H4 _]; subst.
    rewrite readNumber_4 in H by assumption. injection H as <- <-.
    unfold is_byte in *.
    split; [cbn; lia |]. exists [b1; b2; b3; b4]. split; reflexivity.
Qed.

Lemma readLength_short sd (b0 : Z) (s : list Z) :
  is_byte b0 -> (length s < continuation b0)%nat ->
  readLength sd (mkReader (b0 :: s))
  = (inl (match s with [] => EOF | _ :: _ => ErrUnexpectedEOF end),
     mkReader []).
Proof.
  intros Hb. unfold continuation. first_byte b0 Hb; intros Hs;
    try (cbn in Hs; lia);
    unfold readLength, bind at 1; rewrite readNumber_1; run_tests;
    unfold bind; rewrite ?(readNumber_short _ true s Hs);
    reflexivity.
Qed.

Lemma readLength_enough sd (b0 : Z) (s : list Z) :
  is_byte b0 -> Forall is_byte s -> (continuation b0 <= length s)%nat ->
  exists l : Z,
    readLength sd (mkReader (b0 :: s))
    = (inr l, mkReader (drop (continuation b0) s))
    /\ 0 <= l < 2 ^ 32.
Proof.
  intros Hb Hs. pose proof Hb as Hb'. unfold is_byte in Hb'.
  unfold continuation. first_byte b0 Hb; intros Hlen.
  - exists b0. rewrite readLength_1byte by lia. split; [reflexivity | lia].
  - destruct s as [| b1 s]; [cbn in Hlen; lia |].
    inversion Hs as [| ? ? By1 _]; subst.
    rewrite readLength_2bytes by (assumption || lia).
    eexists. split; [reflexivity |]. unfold is_byte in *. lia.
  - destruct s as [| b1 [| b2 s]]; try (cbn in Hlen; lia).
    inversion Hs as [| ? ? By1 Hs1]; subst.
    inversion Hs1 as [| ? ? By2 _]; subst.
    rewrite readLength_3bytes by (assumption || lia).
    eexists. split; [reflexivity |]. unfold is_byte in *. lia.
  - destruct s as [| b1 [| b2 [| b3 s]]]; try (cbn in Hlen; lia).
    inversion Hs as [| ? ? By1 Hs1]; subst.
    inversion Hs1 as [| ? ? By2 Hs2]; subst.
    inversion Hs2 as [| ? ? By3 _]; subst.
    rewrite readLength_4bytes by (assumption || lia).
    eexists. split; [reflexivity |]. unfold is_byte in *. lia.
  - destruct s as [| b1 [| b2 [| b3 [| b4 s]]]]; try (cbn in Hlen; lia).
    inversion Hs as [| ? ? By1 Hs1]; subst.
    inversion Hs1 as [| ? ? By2 Hs2]; subst.
    inversion Hs2 as [| ? ? By3 Hs3]; subst.
    inversion Hs3 as [| ? ? By4 _]; subst.
    rewrite readLength_5bytes by (assumption || lia).
    eexists. split; [reflexivity |]. unfold is_byte in *. lia.
  - exists b0. rewrite readLength_unmarked by lia. split; [reflexivity | lia].
Qed.

Lemma readLength_inr_inv sd (r r' : reader) (l : Z) :
  Forall is_byte (bufferedReader r) ->
  readLength sd r = (inr l, r') ->
  0 <= l < 2 ^ 32
  /\ exists (b0 : Z) (s : list Z),
       bufferedReader r = b0 :: s
       /\ (continuation b0 <= length s)%nat
       /\ bufferedReader r' = drop (continuation b0) s.
Proof.
  intros Hb H. destruct r as [[| b0 s]]; cbn [bufferedReader] in *.
  - discriminate H.
  - inversion Hb as [| ? ? Hb0 Hs]; subst.
    destruct (Nat.le_gt_cases (continuation b0) (length s)) as [Hle | Hgt].
    + destruct (readLength_enough sd b0 s Hb0 Hs Hle) as (l' & E & Hl').
      rewrite E in H. injection H as <- <-.
      split; [exact Hl' |]. exists b0, s. auto.
    + rewrite (readLength_short sd b0 s Hb0 Hgt) in H. discriminate H.
Qed.

(** X1. Whatever bytes arrive, a length that [readLength] returns lies
    in [0, 2^32), so the buffer that [readWord] makes for it never has a
    negative size; the bytes consumed are the first byte and the
    continuation bytes its marker announces, at most five in all. *)
Theorem readLength_returns_32_bit_length sd (r r' : reader) (l : Z) :
  Forall is_byte (bufferedReader r) ->
  readLength sd r = (inr l, r') ->
  0 <= l < 2 ^ 32
  /\ exists (b0 : Z) (s : list Z),
       bufferedReader r = b0 :: s
       /\ (continuation b0 <= 4)%nat
       /\ (continuation b0 <= length s)%nat
       /\ bufferedReader r' = drop (continuation b0) s.
Proof.
  intros Hb H.
  destruct (readLength_inr_inv sd r r' l Hb H) as (Hl & b0 & s & E & Hc & Hr).
  split; [exact Hl |]. exists b0, s. repeat split; try assumption.
  unfold continuation.
  repeat match goal with
         | |- context [if ?c then _ else _] => destruct c
         end; lia.
Qed.

Lemma readLength_returns_32_bit_length_witness :
  Forall is_byte [0xF3; 0xFF; 0xFF; 0xFF; 0xFF; 0x21]
  /\ 0 <= 0xFFFFFFFF < 2 ^ 32
  /\ readLength true (mkReader [0xF3; 0xFF; 0xFF; 0xFF; 0xFF; 0x21])
     = (inr 0xFFFFFFFF, mkReader [0x21]).
Proof.
  assert (Hb : Forall is_byte [0xF3; 0xFF; 0xFF; 0xFF; 0xFF; 0x21])
    by (repeat constructor; unfold is_byte; lia).
  assert (E : readLength true (mkReader [0xF3; 0xFF; 0xFF; 0xFF; 0xFF; 0x21])
              = (inr 0xFFFFFFFF, mkReader [0x21])) by reflexivity.
  split; [exact Hb |]. split; [| exact E].
  exact (proj1 (readLength_returns_32_bit_length true
                  (mkReader [0xF3; 0xFF; 0xFF; 0xFF; 0xFF; 0x21])
                  (mkReader [0x21]) 0xFFFFFFFF Hb E)).
Defined.

(** X2. A length prefix that is cut short is an error, never a length:
    on an empty stream [readLength] returns [EOF]; when fewer bytes
    follow the first byte than its marker announces, it returns [EOF] if
    none follows and [ErrUnexpectedEOF] if some do, and the stream is
    drained. *)
Theorem readLength_truncated_prefix sd (b0 : Z) (s : list Z) :
  is_byte b0 -> (length s < continuation b0)%nat ->
  readLength sd (mkReader []) = (inl EOF, mkReader [])
  /\ readLength sd (mkReader (b0 :: s))
     = (inl (match s with [] => EOF | _ :: _ => ErrUnexpectedEOF end),
        mkReader []).
Proof.
  intros Hb Hs. split; [reflexivity |].
  apply readLength_short; assumption.
Qed.

Lemma readLength_truncated_prefix_witness :
  readLength false (mkReader [0xE0; 0x2a; 0xcd])
  = (inl ErrUnexpectedEOF, mkReader [])
  /\ readLength false (mkReader [0xC0]) = (inl EOF, mkReader []).
Proof.
  split.
  - refine (proj2 (readLength_truncated_prefix false 0xE0 [0x2a; 0xcd] _ _)).
    + unfold is_byte. lia.
    + cbn. lia.
  - refine (proj2 (readLength_truncated_prefix false 0xC0 [] _ _)).
    + unfold is_byte. lia.
    + cbn. lia.
Defined.

(** X3. The length prefix is uniquely decodable: if the prefixes of two
    lengths below [2^32], each followed by any bytes, give the same
    stream, the lengths are equal and so are the bytes that follow.  In
    particular no prefix is the beginning of another. *)
Theorem encodeLength_prefix_free (a b : Z) (r1 r2 : list Z) :
  0 <= a < 2 ^ 32 -> 0 <= b < 2 ^ 32 ->
  encodeLength a ++ r1 = encodeLength b ++ r2 ->
  a = b /\ r1 = r2.
Proof.
  intros Ha Hb E.
  pose proof (readLength_encodeLength false r1 a Ha) as H1.
  pose proof (readLength_encodeLength false r2 b Hb) as H2.
  rewrite E, H2 in H1. injection H1 as -> ->. split; reflexivity.
Qed.

Lemma encodeLength_prefix_free_witness :
  encodeLength 0x4321 ++ [0x01; 0x02] = [0xC0; 0x43; 0x21] ++ [0x01; 0x02]
  /\ (0x4321 = 0x4321 /\ [0x01; 0x02] = [0x01; 0x02]).
Proof.
  split; [reflexivity |].
  apply (encodeLength_prefix_free 0x4321 0x4321 [0x01; 0x02] [0x01; 0x02]);
    [lia | lia | reflexivity].
Defined.

Ltac continuation_of :=
  unfold continuation;
  repeat match goal with
         | |- context [?x <? ?y] =>
             destruct (Z.ltb_spec x y); try (exfalso; euclid)
         end;
  try reflexivity.

(** X4. For every length below [2^32] the prefix that [encodeLength]
    writes consists of byte values, and its first byte announces to the
    reader exactly the number of bytes that follow it. *)
Theorem encodeLength_announces_its_size (l : Z) :
  0 <= l < 2 ^ 32 ->
  Forall is_byte (encodeLength l)
  /\ exists (b0 : Z) (s : list Z),
       encodeLength l = b0 :: s /\ length s = continuation b0.
Proof.
  intros H.
  destruct (Z.lt_ge_cases l 0x80);
    [| destruct (Z.lt_ge_cases l 0x4000);
       [| destruct (Z.lt_ge_cases l 0x200000);
          [| destruct (Z.lt_ge_cases l 0x10000000)]]].
  - rewrite encodeLength_1byte by lia. split.
    + repeat constructor; euclid.
    + eexists _, _. split; [reflexivity |]. cbn [length]. continuation_of.
  - rewrite encodeLength_2bytes by lia. split.
    + repeat constructor; euclid.
    + eexists _, _. split; [reflexivity |]. cbn [length]. continuation_of.
  - rewrite encodeLength_3bytes by lia. split.
    + repeat constructor; euclid.
    + eexists _, _. split; [reflexivity |]. cbn [length]. continuation_of.
  - rewrite encodeLength_4bytes by lia. split.
    + repeat constructor; euclid.
    + eexists _, _. split; [reflexivity |]. cbn [length]. continuation_of.
  - rewrite encodeLength_5bytes by lia. split.
    + repeat constructor; euclid.
    + eexists _, _. split; [reflexivity |]. cbn [length]. continuation_of.
Qed.

Lemma encodeLength_announces_its_size_witness :
  0 <= 0x2acdef < 2 ^ 32
  /\ encodeLength 0x2acdef = [0xE0; 0x2a; 0xcd; 0xef]
  /\ continuation 0xE0 = 3%nat
  /\ Forall is_byte (encodeLength 0x2acdef).
Proof.
  assert (H : 0 <= 0x2acdef < 2 ^ 32) by lia.
  split; [exact H |]. split; [reflexivity |]. split; [reflexivity |].
  exact (proj1 (encodeLength_announces_its_size 0x2acdef H)).
Defined.

(** X5. [readWord] neither loses nor invents bytes: when it returns a
    word, the input is a length prefix of one to five bytes, then the
    word, then what is left, and the prefix decodes to the length of the
    word.  When fewer bytes follow the prefix than it announces,
    [readWord] returns [EOF] (none follows) or [ErrUnexpectedEOF] and not
    a shorter word. *)
Theorem readWord_frames_the_input sd (r : reader) :
  Forall is_byte (bufferedReader r) ->
  (forall (b : list Z) (r' : reader),
     readWord sd r = (inr b, r') ->
     exists p : list Z,
       bufferedReader r = p ++ b ++ bufferedReader r'
       /\ (1 <= length p <= 5)%nat
       /\ readLength sd r
          = (inr (Z.of_nat (length b)), mkReader (b ++ bufferedReader r')))
  /\ (forall (l : Z) (r1 : reader),
        readLength sd r = (inr l, r1) ->
        (length (bufferedReader r1) < Z.to_nat l)%nat ->
        readWord sd r
        = (inl (match bufferedReader r1 with
                | [] => EOF
                | _ :: _ => ErrUnexpectedEOF
                end), mkReader [])).
Proof.
  intros Hb. split.
  - intros b r' H. unfold readWord, bind in H.
    destruct (readLength sd r) as [[e | l] r1] eqn:Hl; [discriminate |].
    destruct (readLength_inr_inv sd r r1 l Hb Hl)
      as (Hrange & b0 & s & Es & Hc & Er1).
    unfold readFull in H.
    destruct (Nat.leb_spec (Z.to_nat l) (length (bufferedReader r1)))
      as [Hle | Hgt];
      [| destruct (bufferedReader r1); discriminate].
    injection H as <- <-. cbn [bufferedReader].
    assert (Hlen : Z.of_nat (length (take (Z.to_nat l) (bufferedReader r1)))
                   = l).
    { rewrite length_take. lia. }
    exists (b0 :: take (continuation b0) s).
    rewrite Hlen, take_drop. split; [| split].
    + rewrite Es, Er1. cbn [app]. rewrite take_drop. reflexivity.
    + cbn [length]. rewrite length_take.
      assert (continuation b0 <= 4)%nat
        by (unfold continuation;
            repeat match goal with
                   | |- context [if ?c then _ else _] => destruct c
                   end; lia).
      lia.
    + destruct r1 as [s1]. reflexivity.
  - intros l r1 Hl Hshort. unfold readWord, bind. rewrite Hl.
    unfold readFull.
    destruct (Nat.leb_spec (Z.to_nat l) (length (bufferedReader r1)));
      [lia |].
    destruct (bufferedReader r1); reflexivity.
Qed.

Lemma readWord_frames_the_input_witness :
  Forall is_byte [0x80; 0x03; 33; 114; 101; 0x00]
  /\ readWord false (mkReader [0x80; 0x03; 33; 114; 101; 0x00])
     = (inr (bytes_of_string "!re"), mkReader [0x00])
  /\ readWord false (mkReader [0x05; 33; 114])
     = (inl ErrUnexpectedEOF, mkReader []).
Proof.
  assert (Hb : Forall is_byte [0x80; 0x03; 33; 114; 101; 0x00])
    by (repeat constructor; unfold is_byte; lia).
  split; [exact Hb |]. split; [reflexivity |].
  refine (proj2 (readWord_frames_the_input false (mkReader [0x05; 33; 114]) _)
            5 (mkReader [33; 114]) _ _).
  - repeat constructor; unfold is_byte; lia.
  - reflexivity.
  - cbn. lia.
Defined.

(** * Further properties of the sentence reader *)

Lemma mapOf_snoc (l : list Pair) (p : Pair) :
  mapOf (l ++ [p]) = <[Key p := Value p]> (mapOf l).
Proof. unfold mapOf. rewrite fold_left_app. reflexivity. Qed.

Lemma mapOf_lookup_Some (l : list Pair) (k v : string) :
  mapOf l !! k = Some v -> In {| Key := k; Value := v |} l.
Proof.
  induction l as [| q l IH] using rev_ind; intros H.
  - discriminate H.
  - rewrite mapOf_snoc in H. apply in_or_app.
    destruct (decide (Key q = k)) as [<- | Hne].
    + rewrite lookup_insert_eq in H. injection H as <-.
      right. left. destruct q; reflexivity.
    + rewrite lookup_insert_ne in H by exact Hne. left. apply IH, H.
Qed.

Lemma mapOf_lookup_None (l : list Pair) (k : string) :
  mapOf l !! k = None <-> (forall p, In p l -> Key p <> k).
Proof.
  induction l as [| q l IH] using rev_ind.
  - split; [intros _ p [] | reflexivity].
  - rewrite mapOf_snoc. split.
    + intros H p Hin.
      destruct (decide (Key q = k)) as [<- | Hne].
      * rewrite lookup_insert_eq in H. discriminate H.
      * rewrite lookup_insert_ne in H by exact Hne.
        apply in_app_or in Hin. destruct Hin as [Hin | [<- | []]].
        -- apply (proj1 IH H p Hin).
        -- exact Hne.
    + intros H.
      rewrite lookup_insert_ne
        by (apply H, in_or_app; right; left; reflexivity).
      apply IH. intros p Hin. apply H, in_or_app. left. exact Hin.
Qed.

Lemma mapOf_last_wins (l1 l2 : list Pair) (p : Pair) :
  (forall q, In q l2 -> Key q <> Key p) ->
  mapOf (l1 ++ p :: l2) !! Key p = Some (Value p).
Proof.
  induction l2 as [| q l2 IH] using rev_ind; intros H.
  - rewrite mapOf_snoc. apply lookup_insert_eq.
  - replace (l1 ++ p :: l2 ++ [q]) with ((l1 ++ p :: l2) ++ [q])
      by (rewrite <- app_assoc; reflexivity).
    rewrite mapOf_snoc.
    rewrite lookup_insert_ne
      by (apply H, in_or_app; right; left; reflexivity).
    apply IH. intros q' Hin. apply H, in_or_app. left. exact Hin.
Qed.

Lemma string_of_bytes_nonempty (b : list Z) : b <> [] -> string_of_bytes b <> "".
Proof. destruct b; [congruence | discriminate]. Qed.

Lemma sentenceWord_keeps_inv (sen sen' : Sentence) (b : list Z) :
  b <> [] -> sentence_inv sen ->
  sentenceWord sen b = inr sen' ->
  sentence_inv sen' /\ Word sen' <> "".
Proof.
  intros Hb [Hm Hw]. unfold sentenceWord.
  destruct (String.eqb_spec (Word sen) "") as [E | Hne].
  - intros [= <-]. destruct (Hw E) as [Ht Hl].
    split; [| apply string_of_bytes_nonempty, Hb].
    split; cbn [Map List Tag Word]; auto.
  - destruct (HasPrefix b (bytes_of_string ".tag=")).
    + intros [= <-]. split; [| exact Hne].
      split; cbn [Map List Tag Word]; [exact Hm | contradiction].
    + destruct (HasPrefix b (bytes_of_string "=")); [| discriminate].
      intros [= <-]. split; [| exact Hne].
      split; cbn [Map List Tag Word]; [| contradiction].
      rewrite mapOf_snoc, Hm. reflexivity.
Qed.

Lemma ReadSentence_loop_keeps_inv (fuel : nat) :
  forall sd (sen sen' : Sentence) (r r' : reader),
    sentence_inv sen ->
    ReadSentence_loop fuel sd sen r = (inr sen', r') ->
    sentence_inv sen' /\ (sen' = sen \/ Word sen' <> "").
Proof.
  induction fuel as [| fuel IH]; intros sd sen sen' r r' Hinv H.
  - discriminate H.
  - cbn [ReadSentence_loop] in H. unfold bind at 1 in H.
    destruct (readWord sd r) as [[e | b] r1]; [discriminate |].
    destruct (Nat.eqb_spec (length b) 0) as [H0 | Hne].
    + injection H as <- <-. auto.
    + destruct (sentenceWord sen b) as [e | sen1] eqn:Hw; [discriminate |].
      assert (Hb : b <> []) by (intros ->; apply Hne; reflexivity).
      destruct (sentenceWord_keeps_inv sen sen1 b Hb Hinv Hw) as [Hinv1 Hv1].
      destruct (IH sd sen1 sen' r1 r' Hinv1 H) as [Hinv' [-> | Hv']].
      * split; [exact Hinv' | right; exact Hv1].
      * split; [exact Hinv' | right; exact Hv'].
Qed.

(** X6. Whatever bytes arrive, a sentence that [ReadSentence] returns is
    consistent: its map is its pairs inserted in order, so a key maps to
    the value of its last pair, a value found in the map is the value of
    some pair, and a key is missing from the map exactly when no pair has
    it; and the sentence either is the empty one or has a verb. *)
Theorem ReadSentence_map_follows_list sd (r r' : reader) (sen : Sentence) :
  ReadSentence sd r = (inr sen, r') ->
  Map sen = mapOf (List sen)
  /\ (sen = NewSentence \/ Word sen <> "")
  /\ (forall (l1 l2 : list Pair) (p : Pair),
        List sen = l1 ++ p :: l2 ->
        (forall q, In q l2 -> Key q <> Key p) ->
        Map sen !! Key p = Some (Value p))
  /\ (forall k v, Map sen !! k = Some v -> In {| Key := k; Value := v |} (List sen))
  /\ (forall k, Map sen !! k = None <-> (forall p, In p (List sen) -> Key p <> k)).
Proof.
  intros H. unfold ReadSentence in H.
  assert (Hinv0 : sentence_inv NewSentence) by (split; [reflexivity | auto]).
  destruct (ReadSentence_loop_keeps_inv _ _ _ _ _ _ Hinv0 H)
    as [[Hm _] Hv].
  split; [exact Hm |]. split; [exact Hv |]. rewrite Hm. split; [| split].
  - intros l1 l2 p -> Hl2. apply mapOf_last_wins. exact Hl2.
  - intros k v. apply mapOf_lookup_Some.
  - intros k. apply mapOf_lookup_None.
Qed.

Lemma ReadSentence_map_follows_list_witness :
  exists sen,
    ReadSentence false
      (mkReader (wire ["!re"; "=a=1"; "=b=2"; "=a=3"; ""]))
    = (inr sen, mkReader [])
    /\ Map sen !! "a" = Some "3" /\ Map sen !! "b" = Some "2"
    /\ Map sen !! "c" = None.
Proof.
  assert (E : ReadSentence false
                (mkReader (wire ["!re"; "=a=1"; "=b=2"; "=a=3"; ""]))
              = (inr (sentence_of "!re"
                        [PairWord "a" "1"; PairWord "b" "2"; PairWord "a" "3"]),
                 mkReader [])).
  { rewrite <- (app_nil_r (wire _)).
    apply (ReadSentence_sentence false []
             (map encodeWord ["!re"; "=a=1"; "=b=2"; "=a=3"; ""]) "!re"
             [PairWord "a" "1"; PairWord "b" "2"; PairWord "a" "3"]).
    - discriminate.
    - solve_attrs_ok.
    - apply (wire_reads_as ["!re"; "=a=1"; "=b=2"; "=a=3"; ""]). solve_short. }
  exists (sentence_of "!re"
            [PairWord "a" "1"; PairWord "b" "2"; PairWord "a" "3"]).
  split; [exact E |].
  destruct (ReadSentence_map_follows_list false _ _ _ E)
    as (_ & _ & Hlast & _ & Hnone).
  split; [| split].
  - apply (Hlast [{| Key := "a"; Value := "1" |}; {| Key := "b"; Value := "2" |}]
             [] {| Key := "a"; Value := "3" |}); [reflexivity |].
    intros q [].
  - apply (Hlast [{| Key := "a"; Value := "1" |}]
             [{| Key := "a"; Value := "3" |}] {| Key := "b"; Value := "2" |});
      [reflexivity |].
    intros q [<- | []]. discriminate.
  - apply Hnone. intros p Hin. cbn in Hin.
    destruct Hin as [<- | [<- | [<- | []]]]; discriminate.
Defined.

(** X7. A stream that ends before the empty word does not give a
    sentence: after a verb and any well-shaped words, and on an empty
    stream as well, the end of the input makes [ReadSentence] return
    [EOF], and what was read so far is dropped. *)
Theorem ReadSentence_unterminated sd (frames : list (list Z))
    (verb : string) (attrs : list attrWord) :
  verb <> "" -> Forall attr_ok attrs ->
  Forall2 reads_as frames (verb :: map render attrs) ->
  ReadSentence sd (mkReader (concat frames)) = (inl EOF, mkReader [])
  /\ ReadSentence sd (mkReader []) = (inl EOF, mkReader []).
Proof.
  intros Hv Hok Hfr. split; [| reflexivity].
  rewrite <- (app_nil_r (concat frames)).
  unfold ReadSentence. cbn [bufferedReader].
  destruct (ReadSentence_fuel frames _ [] Hfr) as [fuel ->].
  rewrite (ReadSentence_loop_words sd frames _ Hfr
             NewSentence (sentence_of verb attrs)).
  - reflexivity.
  - apply words_nonempty. exact Hv.
  - apply sentenceWords_sentence; assumption.
Qed.

Lemma ReadSentence_unterminated_witness :
  ReadSentence true (mkReader (wire ["!re"; "=name=value"; ".tag=r1"]))
  = (inl EOF, mkReader []).
Proof.
  refine (proj1 (ReadSentence_unterminated true
            (map encodeWord ["!re"; "=name=value"; ".tag=r1"])
            "!re" [PairWord "name" "value"; TagWord "r1"] _ _ _)).
  - discriminate.
  - solve_attrs_ok.
  - apply (wire_reads_as ["!re"; "=name=value"; ".tag=r1"]). solve_short.
Defined.

Lemma sentence_words_reads_as (s : string * list attrWord) :
  Forall (fun word => Z.of_nat (String.length word) < 2 ^ 32)
    (sentence_words s) ->
  Forall2 reads_as (map encodeWord (sentence_words s))
    (fst s :: map render (snd s) ++ [""]).
Proof. apply wire_reads_as. Qed.

Lemma ReadSentences_wire sd (sents : list (string * list attrWord)) :
  forall rest : list Z,
    Forall (fun s => fst s <> "" /\ Forall attr_ok (snd s)
                     /\ Forall (fun word => Z.of_nat (String.length word) < 2 ^ 32)
                          (sentence_words s)) sents ->
    ReadSentences (length sents) sd
      (mkReader (wire (concat (map sentence_words sents)) ++ rest))
    = (inr (map (fun s => sentence_of (fst s) (snd s)) sents), mkReader rest).
Proof.
  induction sents as [| s sents IH]; intros rest Hall.
  - reflexivity.
  - inversion Hall as [| ? ? (Hv & Hok & Hshort) Hall']; subst.
    cbn [map concat length ReadSentences].
    unfold wire. rewrite map_app, concat_app, <- app_assoc.
    unfold bind at 1.
    rewrite (ReadSentence_sentence sd _ (map encodeWord (sentence_words s))
               (fst s) (snd s) Hv Hok (sentence_words_reads_as s Hshort)).
    unfold bind at 1. fold (wire (concat (map sentence_words sents))).
    rewrite (IH rest Hall'). reflexivity.
Qed.

(** X8. Sentences are read one after the other without overlap: from a
    stream that holds the words of several sentences, each ended by the
    empty word, as many calls of [ReadSentence] return those sentences in
    order, and what follows the last one is left unread. *)
Theorem ReadSentence_reads_sentences_in_order sd
    (sents : list (string * list attrWord)) (rest : list Z) :
  Forall (fun s => fst s <> "" /\ Forall attr_ok (snd s)
                   /\ Forall (fun word => Z.of_nat (String.length word) < 2 ^ 32)
                        (sentence_words s)) sents ->
  ReadSentences (length sents) sd
    (mkReader (wire (concat (map sentence_words sents)) ++ rest))
  = (inr (map (fun s => sentence_of (fst s) (snd s)) sents), mkReader rest).
Proof. apply ReadSentences_wire. Qed.

Lemma ReadSentence_reads_sentences_in_order_witness :
  ReadSentences 2 false
    (mkReader (wire ["!re"; "=uptime=1d"; ".tag=r1"; "";
                     "!done"; ".tag=r1"; ""] ++ [0x05]))
  = (inr [sentence_of "!re" [PairWord "uptime" "1d"; TagWord "r1"];
          sentence_of "!done" [TagWord "r1"]],
     mkReader [0x05]).
Proof.
  refine (ReadSentence_reads_sentences_in_order false
            [("!re", [PairWord "uptime" "1d"; TagWord "r1"]);
             ("!done", [TagWord "r1"])] [0x05] _).
  repeat (constructor;
          [split; [discriminate | split; [solve_attrs_ok | solve_short]] |]).
  constructor.
Defined.

(** * Further properties of the sentence writer *)

Lemma failFast_healthy (ops : list writer_op) :
  forall bw : bufio_Writer,
    Forall (fun o => o = None) (results bw) ->
    fst (failFast ops bw) = None
    /\ calls (snd (failFast ops bw)) = calls bw ++ armed_calls ops
    /\ Forall (fun o => o = None) (results (snd (failFast ops bw))).
Proof.
  induction ops as [| op ops IH]; intros bw Hr.
  - cbn. rewrite app_nil_r. auto.
  - cbn [failFast]. unfold bufio_call. cbn [results calls].
    destruct (results bw) as [| o rs] eqn:E.
    + match goal with
      | |- context [failFast ops ?b] =>
          destruct (IH b) as (H1 & H2 & H3); [constructor |]
      end.
      split; [exact H1 |]. split; [| exact H3].
      rewrite H2. cbn [calls armed_calls flat_map app].
      rewrite <- !app_assoc. reflexivity.
    + inversion Hr as [| ? ? Ho Hrs]; subst.
      match goal with
      | |- context [failFast ops ?b] =>
          destruct (IH b) as (H1 & H2 & H3); [exact Hrs |]
      end.
      split; [exact H1 |]. split; [| exact H3].
      rewrite H2. cbn [calls armed_calls flat_map app].
      rewrite <- !app_assoc. reflexivity.
Qed.

Lemma written_app (a b : list io_call) : written (a ++ b) = written a ++ written b.
Proof. unfold written. apply flat_map_app. Qed.

Lemma written_word_ops (words : list string) :
  written (armed_calls (flat_map word_ops words)) = wire words.
Proof.
  induction words as [| word words IH]; [reflexivity |].
  cbn [flat_map word_ops app armed_calls call_of].
  change (armed_calls (flat_map word_ops words))
    with (flat_map (fun op => [CallSetWriteDeadline; call_of op])
            (flat_map word_ops words)) in IH.
  cbn [written flat_map app]. fold (written (flat_map
    (fun op => [CallSetWriteDeadline; call_of op]) (flat_map word_ops words))).
  rewrite IH. unfold wire. cbn [map concat]. unfold encodeWord.
  rewrite <- app_assoc. reflexivity.
Qed.

Lemma written_sentence_ops (words : list string) :
  written (armed_calls (sentence_ops words)) = wire (words ++ [""]).
Proof.
  unfold sentence_ops, armed_calls. rewrite flat_map_app, written_app.
  fold (armed_calls (flat_map word_ops (words ++ [""]))).
  rewrite written_word_ops. cbn. apply app_nil_r.
Qed.

(** X9. On a connection where no write fails, the writer and the reader
    agree: writing a sentence (a verb and attribute words) returns no
    error and hands to the connection exactly the framed words followed
    by the empty word, and [ReadSentence] on those bytes, whatever
    follows them, returns that sentence and stops after it. *)
Theorem writeSentence_then_ReadSentence (w : writer) sd (rest : list Z)
    (verb : string) (attrs : list attrWord) :
  err w = None ->
  Forall (fun o => o = None) (results (bufferedWriter w)) ->
  verb <> "" -> Forall attr_ok attrs ->
  Forall (fun word => Z.of_nat (String.length word) < 2 ^ 32)
    (verb :: map render attrs) ->
  let words := verb :: map render attrs in
  let w' := snd (writeSentence words w) in
  fst (writeSentence words w) = None
  /\ err w' = None /\ locked w' = false
  /\ written (calls (bufferedWriter w'))
     = written (calls (bufferedWriter w)) ++ wire (words ++ [""])
  /\ ReadSentence sd (mkReader (wire (words ++ [""]) ++ rest))
     = (inr (sentence_of verb attrs), mkReader rest).
Proof.
  intros He Hr Hv Hok Hshort words w'.
  subst w'. rewrite writeSentence_ops.
  rewrite (runOp_failFast _ (BeginSentence w)) by exact He.
  cbn [BeginSentence bufferedWriter locked].
  destruct (failFast_healthy (sentence_ops words) (bufferedWriter w) Hr)
    as (H1 & H2 & _).
  destruct (failFast (sentence_ops words) (bufferedWriter w)) as [e bw].
  cbn [fst snd err locked bufferedWriter] in *. subst e.
  repeat split.
  - rewrite H2, written_app, written_sentence_ops. reflexivity.
  - apply (ReadSentence_sentence sd rest (map encodeWord (words ++ [""]))
             verb attrs Hv Hok).
    apply (wire_reads_as (words ++ [""])).
    apply Forall_app. split; [exact Hshort |].
    constructor; [cbn; lia | constructor].
Qed.

Lemma writeSentence_then_ReadSentence_witness :
  let w := {| bufferedWriter := {| results := [None; None]; calls := [] |};
              err := None; locked := false |} in
  let words := ["/login"; "=name=admin"; "=password="] in
  fst (writeSentence words w) = None
  /\ ReadSentence false
       (mkReader (written (calls (bufferedWriter (snd (writeSentence words w))))))
     = (inr (sentence_of "/login" [PairWord "name" "admin"; PairWord "password" ""]),
        mkReader []).
Proof.
  intros w words.
  destruct (writeSentence_then_ReadSentence w false [] "/login"
              [PairWord "name" "admin"; PairWord "password" ""])
    as (H1 & _ & _ & H4 & H5).
  - reflexivity.
  - repeat constructor.
  - discriminate.
  - solve_attrs_ok.
  - solve_short.
  - split; [exact H1 |].
    change (map render [PairWord "name" "admin"; PairWord "password" ""])
      with ["=name=admin"; "=password="] in H4, H5.
    fold words in H4, H5. fold w in H4.
    rewrite H4. cbn [calls bufferedWriter w written flat_map app].
    rewrite app_nil_r in H5. exact H5.
Defined.

(** * Further properties of the login handshake *)

Lemma le_bytes_length (n : nat) (x : Z) : length (md5.le_bytes n x) = n.
Proof.
  revert x. induction n as [| n IH]; intros x; cbn; [reflexivity |].
  now rewrite IH.
Qed.

Lemma le_bytes_bytes (n : nat) (x : Z) : Forall is_byte (md5.le_bytes n x).
Proof.
  revert x. induction n as [| n IH]; intros x; cbn; constructor.
  - unfold is_byte. apply Z.mod_pos_bound. lia.
  - apply IH.
Qed.

Lemma md5_Sum_digest (msg : list Z) :
  length (md5.Sum msg) = 16%nat /\ Forall is_byte (md5.Sum msg).
Proof.
  unfold md5.Sum.
  destruct (fold_left md5.block _ _) as [[[a b] c] d].
  split.
  - rewrite !length_app, !le_bytes_length. reflexivity.
  - repeat (apply Forall_app; split); apply le_bytes_bytes.
Qed.

Lemma hex_digits_of_byte (v : Z) :
  is_byte v ->
  In (nth (Z.to_nat (Z.shiftr v 4)) hex.hextable 0) hex.hextable
  /\ In (nth (Z.to_nat (Z.land v 0x0f)) hex.hextable 0) hex.hextable.
Proof.
  intros Hv.
  pose proof (byte_cases
    (fun v =>
       existsb (Z.eqb (nth (Z.to_nat (Z.shiftr v 4)) hex.hextable 0))
         hex.hextable
       && existsb (Z.eqb (nth (Z.to_nat (Z.land v 0x0f)) hex.hextable 0))
            hex.hextable)
    eq_refl v Hv) as H.
  apply andb_prop in H. destruct H as [H1 H2].
  apply existsb_exists in H1, H2.
  destruct H1 as (x & Hx & E1). destruct H2 as (y & Hy & E2).
  apply Z.eqb_eq in E1, E2. rewrite E1, E2. split; assumption.
Qed.

Lemma hex_Encode_digits (src : list Z) :
  Forall is_byte src ->
  length (hex.Encode src) = (2 * length src)%nat
  /\ Forall (fun z => In z hex.hextable) (hex.Encode src).
Proof.
  induction 1 as [| v src Hv _ [IHl IHd]]; cbn [hex.Encode length].
  - split; [reflexivity | constructor].
  - destruct (hex_digits_of_byte v Hv) as [H1 H2].
    split; [rewrite IHl; lia |].
    constructor; [exact H1 |]. constructor; [exact H2 | exact IHd].
Qed.

Lemma string_of_bytes_length (b : list Z) :
  String.length (string_of_bytes b) = length b.
Proof.
  unfold string_of_bytes. induction b as [| x b IH]; cbn; [reflexivity |].
  now rewrite IH.
Qed.

Lemma hex_digits_ascii (l : list Z) :
  Forall (fun z => In z hex.hextable) l ->
  Forall (fun ch => In ch (list_ascii_of_string "0123456789abcdef"))
    (map (fun x => ascii_of_N (Z.to_N x)) l).
Proof.
  induction 1 as [| z l Hz _ IH]; cbn [map]; constructor; [| exact IH].
  change (list_ascii_of_string "0123456789abcdef")
    with (map (fun x => ascii_of_N (Z.to_N x)) hex.hextable).
  exact (in_map (fun x => ascii_of_N (Z.to_N x)) hex.hextable z Hz).
Qed.

(** X10. The response that [challengeResponse] computes always has the
    shape the device expects, whatever the challenge and the password:
    [00] followed by exactly 32 characters, each a lower-case hex
    digit. *)
Theorem challengeResponse_shape (cha : list Z) (password : string) :
  exists digest : string,
    routeros.challengeResponse cha password = "00" +:+ digest
    /\ String.length digest = 32%nat
    /\ Forall (fun ch => In ch (list_ascii_of_string "0123456789abcdef"))
         (list_ascii_of_string digest).
Proof.
  unfold routeros.challengeResponse, hex.EncodeToString.
  set (msg := [0] ++ bytes_of_string password ++ cha).
  destruct (md5_Sum_digest msg) as [Hlen Hbytes].
  destruct (hex_Encode_digits _ Hbytes) as [Hl Hd].
  eexists. split; [reflexivity |]. split.
  - rewrite string_of_bytes_length, Hl, Hlen. reflexivity.
  - unfold string_of_bytes. rewrite list_ascii_of_string_of_list_ascii.
    apply hex_digits_ascii. exact Hd.
Qed.

(** X11. [Login] stops at the first failure.  When the first [/login]
    returns an error, [Login] returns that error; when the [ret]
    attribute is not a hex string, it returns the invalid-challenge
    error; when the first call never returns, neither does [Login].  In
    each case nothing more is passed to [Run], and in no case does
    [Login] pass more than two sentences to [Run], the first being the
    one with name and password. *)
Theorem Login_stops_at_first_failure {St : Type}
    (run : list string -> St ->
           routeros.outcome (option routeros.Reply * option error) * St)
    (c : St) (username password : string) :
  let first :=
    ["/login"; "=name=" +:+ username; "=password=" +:+ password] in
  let login := routeros.exec run (routeros.Login username password) c in
  (forall reply e c1,
     run first c = (routeros.Returns (reply, Some e), c1) ->
     login = (routeros.Returned (Some e), c1, [first]))
  /\ (forall c1,
        run first c = (routeros.Blocks, c1) ->
        login = (routeros.Blocked, c1, [first]))
  /\ (forall reply done ret c1,
        run first c = (routeros.Returns (Some reply, None), c1) ->
        routeros.Done reply = Some done ->
        Map done !! "ret" = Some ret ->
        hex.DecodeString ret = None ->
        login = (routeros.Returned (Some ErrInvalidRet), c1, [first]))
  /\ (length (snd login) <= 2)%nat
  /\ hd_error (snd login) = Some first.
Proof.
  intros first login. subst login. unfold routeros.Login.
  cbn [routeros.exec]. fold first.
  split; [| split; [| split]].
  - intros reply e c1 ->. reflexivity.
  - intros c1 ->. reflexivity.
  - intros reply done ret c1 -> Hd Hr Hx. rewrite Hd, Hr, Hx. reflexivity.
  - destruct (run first c) as [[[reply [e |]] |] c1]; cbn; try (split; [lia | reflexivity]).
    destruct reply as [reply |]; cbn; [| split; [lia | reflexivity]].
    destruct (routeros.Done reply) as [done |]; cbn;
      [| split; [lia | reflexivity]].
    destruct (Map done !! "ret") as [ret |]; cbn;
      [| split; [lia | reflexivity]].
    destruct (hex.DecodeString ret) as [cha |]; cbn;
      [| split; [lia | reflexivity]].
    destruct (run _ c1) as [[[r2 [e2 |]] |] c2]; cbn;
      split; (lia || reflexivity).
Qed.

Lemma Login_stops_at_first_failure_witness :
  let run := routeros.Run (challengeReply "0a1") []
               ({| routeros.Re := []; routeros.Done := None |}, None) in
  fst (routeros.exec run (routeros.Login "admin" "secret")
         (freshClient false 60000000000))
  = (routeros.Returned (Some ErrInvalidRet),
     snd (run ["/login"; "=name=admin"; "=password=secret"]
            (freshClient false 60000000000)))
  /\ snd (routeros.exec run (routeros.Login "admin" "secret")
            (freshClient false 60000000000))
     = [["/login"; "=name=admin"; "=password=secret"]].
Proof.
  intros run.
  pose proof (proj1 (proj2 (proj2
    (Login_stops_at_first_failure run (freshClient false 60000000000)
       "admin" "secret")))
    {| routeros.Re := [];
       routeros.Done := Some (sentence_of "!done" [PairWord "ret" "0a1"]) |}
    (sentence_of "!done" [PairWord "ret" "0a1"]) "0a1"
    (snd (run ["/login"; "=name=admin"; "=password=secret"]
            (freshClient false 60000000000)))
    ltac:(vm_compute; reflexivity) eq_refl
    ltac:(vm_compute; reflexivity) ltac:(vm_compute; reflexivity)) as H.
  cbv zeta in H. rewrite H. split; reflexivity.
Defined.

(** X12. A reply without a terminal sentence makes [Login] panic: the
    lookup [r.Done.Map["ret"]] goes through the nil pointer before the
    test [r.Done != nil] is reached.  So the error "no ret (challenge)
    received" that follows that test is never returned by [Login], as
    long as [Run] itself does not return it. *)
Theorem Login_nil_terminal_sentence_panics {St : Type}
    (run : list string -> St ->
           routeros.outcome (option routeros.Reply * option error) * St)
    (c : St) (username password : string) :
  let first :=
    ["/login"; "=name=" +:+ username; "=password=" +:+ password] in
  let login := routeros.exec run (routeros.Login username password) c in
  (forall reply c1,
     run first c = (routeros.Returns (Some reply, None), c1) ->
     routeros.Done reply = None ->
     login = (routeros.Panicked, c1, [first]))
  /\ (forall c1,
        run first c = (routeros.Returns (None, None), c1) ->
        login = (routeros.Panicked, c1, [first]))
  /\ ((forall sentence c0 reply e c',
         run sentence c0 = (routeros.Returns (reply, e), c') ->
         e <> Some ErrNoRet) ->
      fst (fst login) <> routeros.Returned (Some ErrNoRet)).
Proof.
  intros first login. subst login. unfold routeros.Login.
  cbn [routeros.exec]. fold first.
  split; [| split].
  - intros reply c1 -> Hd. rewrite Hd. reflexivity.
  - intros c1 ->. reflexivity.
  - intros Hrun.
    destruct (run first c) as [[[reply [e |]] |] c1] eqn:H1; cbn;
      try discriminate.
    { intros [= ->]. exact (Hrun _ _ _ _ _ H1 eq_refl). }
    destruct reply as [reply |]; cbn; [| discriminate].
    destruct (routeros.Done reply) as [done |]; cbn; [| discriminate].
    destruct (Map done !! "ret") as [ret |]; cbn; [| discriminate].
    destruct (hex.DecodeString ret) as [cha |]; cbn; [| discriminate].
    destruct (run _ c1) as [[[r2 [e2 |]] |] c2] eqn:H2; cbn;
      try discriminate.
    intros [= ->]. exact (Hrun _ _ _ _ _ H2 eq_refl).
Qed.

Lemma Login_nil_terminal_sentence_panics_witness :
  let run := routeros.Run
               (fun r => ((Some {| routeros.Re := []; routeros.Done := None |},
                           @None error), r))
               [] ({| routeros.Re := []; routeros.Done := None |}, None) in
  fst (fst (routeros.exec run (routeros.Login "admin" "secret")
              (freshClient false 60000000000)))
  = routeros.Panicked.
Proof.
  intros run.
  pose proof (proj1
    (Login_nil_terminal_sentence_panics run (freshClient false 60000000000)
       "admin" "secret")
    {| routeros.Re := []; routeros.Done := None |}
    (snd (run ["/login"; "=name=admin"; "=password=secret"]
            (freshClient false 60000000000)))
    ltac:(vm_compute; reflexivity) eq_refl) as H.
  cbv zeta in H. rewrite H. reflexivity.
Defined.

(** * Further properties of the command dispatcher *)

Lemma not_blank_existsb (sentence : list string) :
  Forall (fun word => ~ blank word) sentence ->
  existsb routeros.emptyWord sentence = false.
Proof.
  induction 1 as [| word sentence Hw _ IH]; cbn [existsb]; [reflexivity |].
  rewrite IH, orb_false_r.
  destruct (routeros.emptyWord word) eqn:E; [| reflexivity].
  exfalso. apply Hw, emptyWord_blank, E.
Qed.

Lemma set_w_same (c : routeros.Client) : routeros.set_w (routeros.w c) c = c.
Proof. destruct c; reflexivity. Qed.

Lemma writeWords_client (sentence : list string) :
  forall c : routeros.Client,
    fold_left (fun c word => routeros.set_w (WriteWord word (routeros.w c)) c)
      sentence c
    = routeros.set_w
        (fold_left (fun w word => WriteWord word w) sentence (routeros.w c)) c.
Proof.
  induction sentence as [| word sentence IH]; intros c.
  - cbn [fold_left]. symmetry. apply set_w_same.
  - cbn [fold_left]. rewrite IH. reflexivity.
Qed.

(** X13. In synchronous mode, a sentence without a blank word is written
    as one sentence and then the reply is read: [RunArgs] returns what
    [readReply] returns on the client's reader.  When writing fails,
    [RunArgs] returns the writer's error and the reader is not touched:
    no reply is read for a command that was not sent. *)
Theorem RunArgs_sync_writes_then_reads
    (readReply : proto.reader ->
                 (option routeros.Reply * option error) * proto.reader)
    (reC : list (option bool)) (stored : routeros.Reply * option error)
    (sentence : list string) (c : routeros.Client) :
  routeros.async c = false ->
  Forall (fun word => ~ blank word) sentence ->
  routeros.RunArgs readReply reC stored sentence c
  = match writeSentence sentence (routeros.w c) with
    | (Some e, w') =>
        (routeros.Returns (None, Some e), routeros.set_w w' c)
    | (None, w') =>
        (routeros.Returns (fst (readReply (routeros.r c))),
         routeros.set_r (snd (readReply (routeros.r c)))
           (routeros.set_w w' c))
    end.
Proof.
  intros Hsync Hwords. unfold routeros.RunArgs.
  rewrite (not_blank_existsb sentence Hwords).
  rewrite writeWords_client.
  cbn [routeros.set_w routeros.w routeros.async]. rewrite Hsync. cbn [negb].
  unfold routeros.endCommandSync, writeSentence.
  cbn [routeros.set_w routeros.w routeros.r].
  destruct (EndSentence _) as [[e |] w']; [reflexivity |].
  destruct (readReply (routeros.r c)) as [res r']. reflexivity.
Qed.

Lemma RunArgs_sync_writes_then_reads_witness :
  let c :=
    {| routeros.r := mkReader [0x00];
       routeros.w :=
         {| bufferedWriter :=
              {| results := [None; Some (ErrTransport 32)]; calls := [] |};
            err := None; locked := false |};
       routeros.closing := false; routeros.async := false;
       routeros.lastTag := 0; routeros.tags := None;
       routeros.timeout := 60000000000 |} in
  let res :=
    routeros.RunArgs (fun r => ((None, Some EOF), mkReader [])) []
      ({| routeros.Re := []; routeros.Done := None |}, None)
      ["/system/reboot"] c in
  fst res = routeros.Returns (None, Some (ErrTransport 32))
  /\ routeros.r (snd res) = mkReader [0x00].
Proof.
  intros c res. subst res.
  rewrite (RunArgs_sync_writes_then_reads _ _ _ ["/system/reboot"] c eq_refl).
  - split; reflexivity.
  - constructor; [| constructor]. unfold blank. cbn.
    intros H. inversion H as [| ? ? Hc _]. discriminate Hc.
Defined.

Lemma writeSentence_snoc (words : list string) (word : string) (w : writer) :
  writeSentence (words ++ [word]) w
  = EndSentence
      (WriteWord word
         (fold_left (fun w x => WriteWord x w) words (BeginSentence w))).
Proof. unfold writeSentence. rewrite fold_left_app. reflexivity. Qed.

(** X14. In asynchronous mode the tag word is the last word of the
    command's own sentence: [RunArgs] writes the words and then
    [.tag=r<n>] as one sentence, with [n] the advanced counter.  A write
    error is returned, and [endCommandAsync] has registered nothing.
    With the tag table gone, [RunArgs] returns the loop-ended error,
    after the sentence has been written all the same.  Otherwise
    [endCommandAsync] registers the command under its tag before the
    wait begins, and what [RunArgs] returns is what the wait ends
    with. *)
Theorem RunArgs_async_sends_tagged_sentence
    (readReply : proto.reader ->
                 (option routeros.Reply * option error) * proto.reader)
    (reC : list (option bool)) (stored : routeros.Reply * option error)
    (sentence : list string) (c : routeros.Client) :
  routeros.async c = true ->
  Forall (fun word => ~ blank word) sentence ->
  let n := (routeros.lastTag c + 1) mod 2 ^ 64 in
  let tg := "r" +:+ FormatUint n in
  let sent := writeSentence (sentence ++ [".tag=" +:+ tg]) (routeros.w c) in
  let res := routeros.RunArgs readReply reC stored sentence c in
  let c1 :=
    routeros.set_w
      (fold_left (fun w word => WriteWord word w) sentence
         (BeginSentence (routeros.w c))) c in
  routeros.w (snd res) = snd sent
  /\ routeros.lastTag (snd res) = n
  /\ match fst sent with
     | Some e =>
         fst res = routeros.Returns (None, Some e)
         /\ fst (routeros.endCommandAsync c1) = inl e
         /\ routeros.tags (snd (routeros.endCommandAsync c1))
            = routeros.tags c
     | None =>
         match routeros.tags c with
         | None =>
             fst res = routeros.Returns (None, Some errAsyncLoopEnded)
             /\ routeros.w (snd (routeros.endCommandAsync c1)) = snd sent
         | Some t =>
             (exists a : routeros.asyncReply,
                fst (routeros.endCommandAsync c1) = inr a
                /\ routeros.tag a = tg
                /\ routeros.tags (snd (routeros.endCommandAsync c1))
                   = Some (<[tg := a]> t)
                /\ <[tg := a]> t !! tg = Some a)
             /\ fst res
                = match routeros.readAllSentences (routeros.timeout c) reC with
                  | routeros.Returns (Some e) =>
                      routeros.Returns (None, Some e)
                  | routeros.Returns None =>
                      routeros.Returns (Some (fst stored), snd stored)
                  | routeros.Blocks => routeros.Blocks
                  end
         end
     end.
Proof.
  intros Hasync Hwords n tg sent res c1. subst res sent c1.
  rewrite writeSentence_snoc. unfold routeros.RunArgs.
  rewrite (not_blank_existsb sentence Hwords).
  rewrite writeWords_client.
  cbn [routeros.set_w routeros.w routeros.async]. rewrite Hasync. cbn [negb].
  unfold routeros.endCommandAsync, routeros.nextTag.
  cbn [routeros.set_w routeros.w routeros.tags routeros.tag
       routeros.lastTag routeros.timeout].
  fold n. fold tg.
  destruct (EndSentence _) as [[e |] w']; cbn [fst snd].
  - repeat split.
  - destruct (routeros.tags c) as [t |]; cbn [fst snd].
    + cbn [routeros.timeout].
      destruct (routeros.readAllSentences (routeros.timeout c) reC)
        as [[e |] |]; cbn [fst snd routeros.w routeros.lastTag routeros.tags];
        (split; [reflexivity |]); (split; [reflexivity |]);
        (split; [| reflexivity]);
        eexists;
        (split; [reflexivity |]);
        (split; [reflexivity |]);
        (split; [reflexivity | apply lookup_insert_eq]).
    + repeat split.
Qed.

Lemma RunArgs_async_sends_tagged_sentence_witness :
  let res :=
    routeros.RunArgs (challengeReply "") [Some true; None]
      ({| routeros.Re := []; routeros.Done := None |}, None)
      ["/interface/print"] (freshClient true 60000000000) in
  fst res = routeros.Returns (None, Some errAsyncTimeout)
  /\ written (calls (bufferedWriter (routeros.w (snd res))))
     = wire ["/interface/print"; ".tag=r1"; ""]
  /\ routeros.lastTag (snd res) = 1.
Proof.
  intros res.
  destruct (RunArgs_async_sends_tagged_sentence (challengeReply "")
              [Some true; None]
              ({| routeros.Re := []; routeros.Done := None |}, None)
              ["/interface/print"] (freshClient true 60000000000) eq_refl)
    as (Hw & Hn & _).
  - constructor; [| constructor]. unfold blank. cbn.
    intros H. inversion H as [| ? ? Hc _]. discriminate Hc.
  - fold res in Hw, Hn. split; [vm_compute; reflexivity |].
    split; [rewrite Hw; vm_compute; reflexivity |].
    rewrite Hn. reflexivity.
Defined.

Lemma CloseTimes_closing (n : nat) (c : routeros.Client) :
  routeros.closing c = true -> CloseTimes n c = (c, O).
Proof.
  intros H. induction n as [| n IH]; [reflexivity |].
  cbn [CloseTimes]. unfold Close. rewrite H, IH. reflexivity.
Qed.

(** X16. [Close] is idempotent: however often it is called on a client
    that is not yet closing, the connection is closed exactly once, by
    the first call, and the client changes in its closing flag alone; on
    a client that is already closing it does nothing. *)
Theorem Close_closes_the_connection_once (n : nat) (c : routeros.Client) :
  (routeros.closing c = false ->
   CloseTimes (S n) c = (fst (Close c), 1%nat)
   /\ routeros.closing (fst (Close c)) = true
   /\ routeros.w (fst (Close c)) = routeros.w c
   /\ routeros.tags (fst (Close c)) = routeros.tags c
   /\ routeros.lastTag (fst (Close c)) = routeros.lastTag c
   /\ routeros.r (fst (Close c)) = routeros.r c
   /\ routeros.async (fst (Close c)) = routeros.async c)
  /\ (routeros.closing c = true -> CloseTimes n c = (c, O)).
Proof.
  split.
  - intros H. cbn [CloseTimes]. unfold Close. rewrite H. cbn [fst].
    rewrite CloseTimes_closing by reflexivity.
    repeat split.
  - apply CloseTimes_closing.
Qed.

Lemma Close_closes_the_connection_once_witness :
  snd (CloseTimes 4 (freshClient true 60000000000)) = 1%nat
  /\ routeros.closing (fst (CloseTimes 4 (freshClient true 60000000000)))
     = true.
Proof.
  destruct (proj1 (Close_closes_the_connection_once 3
                     (freshClient true 60000000000)) eq_refl)
    as (H & Hc & _).
  rewrite H. split; [reflexivity | exact Hc].
Defined.

(** * Prefixes longer than needed *)

(** The cases of [TestReadLength] in reader_test.go. *)
Example TestReadLength_cases :
  readLength true (mkReader [0x01]) = (inr 0x00000001, mkReader [])
  /\ readLength true (mkReader [0x80; 0x87]) = (inr 0x00000087, mkReader [])
  /\ readLength true (mkReader [0xC0; 0x43; 0x21])
     = (inr 0x00004321, mkReader [])
  /\ readLength true (mkReader [0xE0; 0x2a; 0xcd; 0xef])
     = (inr 0x002acdef, mkReader [])
  /\ readLength true (mkReader [0xF0; 0x10; 0x00; 0x00; 0x80])
     = (inr 0x10000080, mkReader []).
Proof. repeat split. Qed.

(** X17. [readLength] does not insist on the shortest prefix: a length
    below 256 is also read from the two-, three-, four- and five-byte
    forms with leading zero bytes, and in the five-byte form the low
    three bits of the marker byte are ignored.  Decoding is therefore not
    one-to-one, although encoding is. *)
Theorem readLength_accepts_longer_prefixes sd (rest : list Z) (l m : Z) :
  is_byte l -> 0xF0 <= m < 0xF8 ->
  readLength sd (mkReader ([0x80; l] ++ rest)) = (inr l, mkReader rest)
  /\ readLength sd (mkReader ([0xC0; 0; l] ++ rest)) = (inr l, mkReader rest)
  /\ readLength sd (mkReader ([0xE0; 0; 0; l] ++ rest))
     = (inr l, mkReader rest)
  /\ readLength sd (mkReader ([m; 0; 0; 0; l] ++ rest))
     = (inr l, mkReader rest).
Proof.
  intros Hl Hm.
  assert (H0 : is_byte 0) by (unfold is_byte; lia).
  cbn [app]. split; [| split; [| split]].
  - rewrite readLength_2bytes by (assumption || lia). reflexivity.
  - rewrite readLength_3bytes by (assumption || lia). reflexivity.
  - rewrite readLength_4bytes by (assumption || lia). reflexivity.
  - rewrite readLength_5bytes by (assumption || lia). reflexivity.
Qed.

Lemma readLength_accepts_longer_prefixes_witness :
  readLength false (mkReader [0xF7; 0; 0; 0; 0x05; 0x21])
  = (inr 0x05, mkReader [0x21])
  /\ encodeLength 0x05 = [0x05].
Proof.
  split; [| reflexivity].
  refine (proj2 (proj2 (proj2
            (readLength_accepts_longer_prefixes false [0x21] 0x05 0xF7 _ _)))).
  - unfold is_byte. lia.
  - lia.
Defined.
